(** * frnm: renaming files and folders with a substitution character

    A shallow embedding of [frnm.py] and the properties of its name
    generator, its traversal order and its rename engine.

    Python strings are modelled as lists of characters ([list ascii]),
    canonical paths as lists of path components.  The program treats
    every character outside the class [-._0-9a-zA-Z] alike, whatever
    its code. *)

From Stdlib Require Import List Ascii String Bool Arith Lia ZArith.
Import ListNotations.

Set Implicit Arguments.

Local Open Scope char_scope.
Local Open Scope list_scope.

(** ** Strings *)

Abbreviation str := (list ascii) (only parsing).

(** String literals for examples. *)
Definition s2l (s : string) : str := list_ascii_of_string s.

Definition is_nil (A : Type) (l : list A) : bool :=
  match l with
  | [] => true
  | _ :: _ => false
  end.

Fixpoint str_eqb (x y : str) : bool :=
  match x, y with
  | [], [] => true
  | a :: x', b :: y' => (a =? b) && str_eqb x' y'
  | _, _ => false
  end.

(** ** EXCLUDED_CHARS = re.compile(r"[^-._0-9a-zA-Z]") *)

Definition in_range (lo hi a : ascii) : bool :=
  (lo <=? a)%char && (a <=? hi)%char.

(** The characters of the class [-._0-9a-zA-Z]; [EXCLUDED_CHARS] matches
    exactly one character outside of it. *)
Definition is_allowed (a : ascii) : bool :=
  (a =? "-") || (a =? ".") || (a =? "_")
  || in_range "0" "9" a || in_range "a" "z" a || in_range "A" "Z" a.

Definition is_excluded (a : ascii) : bool := negb (is_allowed a).

(** [EXCLUDED_CHARS.sub(char, s)]: every match, that is every single
    excluded character, is replaced by [char].  The replacement is taken
    literally because [rename_file] only lets an allowed [char] through. *)
Definition EXCLUDED_CHARS_sub (char : ascii) (s : str) : str :=
  map (fun a => if is_excluded a then char else a) s.

(** ** str.strip, str.split, str.join for a one-character argument *)

Fixpoint lstrip (char : ascii) (s : str) : str :=
  match s with
  | [] => []
  | a :: t => if a =? char then lstrip char t else s
  end.

Fixpoint rstrip (char : ascii) (s : str) : str :=
  match s with
  | [] => []
  | a :: t =>
      let r := rstrip char t in
      if is_nil r && (a =? char) then [] else a :: r
  end.

Definition strip (char : ascii) (s : str) : str :=
  rstrip char (lstrip char s).

(** [split_aux char s] is the piece before the first [char] and the
    pieces after it. *)
Fixpoint split_aux (char : ascii) (s : str) : str * list str :=
  match s with
  | [] => ([], [])
  | a :: t =>
      let (h, r) := split_aux char t in
      if a =? char then ([], h :: r) else (a :: h, r)
  end.

(** [s.split(char)]: never empty, [''.split(char) == ['']]. *)
Definition split (char : ascii) (s : str) : list str :=
  let (h, r) := split_aux char s in h :: r.

(** [char.join(l)] *)
Fixpoint join (char : ascii) (l : list str) : str :=
  match l with
  | [] => []
  | [x] => x
  | x :: rest => x ++ char :: join char rest
  end.

(** [list(filter(lambda component: component != "", name_components))] *)
Definition non_empty (component : str) : bool := negb (is_nil component).

Definition name_components (char : ascii) (s : str) : list str :=
  filter non_empty (split char s).

(** ** os.path.splitext on a basename

    [old_name] is the tail returned by [os.path.split], it holds no
    path separator, so the separator index of [posixpath.splitext] is -1
    and the scan for leading dots starts at index 0. *)

(** [s.rfind(a)], [None] for -1. *)
Fixpoint rfind (a : ascii) (s : str) : option nat :=
  match s with
  | [] => None
  | x :: t =>
      match rfind a t with
      | Some i => Some (S i)
      | None => if x =? a then Some 0 else None
      end
  end.

Definition is_dot (a : ascii) : bool := a =? ".".

Definition splitext (p : str) : str * str :=
  match rfind "." p with
  | None => (p, [])
  | Some dotIndex =>
      (* skip all leading dots *)
      if forallb is_dot (firstn dotIndex p) then (p, [])
      else (firstn dotIndex p, skipn dotIndex p)
  end.

(** ** generate_new_pathname

    The function reads [file_path] twice: for its basename [old_name] and
    for [os.path.isfile(file_path)].  Both are arguments here; the
    rename engine below supplies them from the file system. *)

Definition generate_new_pathname (isfile : bool) (old_name : str) (char : ascii)
  : str :=
  if isfile then
    let (root, extension) := splitext old_name in
    let new_root := strip char (EXCLUDED_CHARS_sub char root) in
    let components := name_components char new_root in
    if (List.length components <? 2)%nat then old_name
    else join char components ++ extension
  else
    let new_name := strip char (EXCLUDED_CHARS_sub char old_name) in
    let components := name_components char new_name in
    if (List.length components <? 2)%nat then old_name
    else join char components.

(** The part of a basename the generator sanitizes: the root of a file,
    the whole name of a directory. *)
Definition sanitized_portion (isfile : bool) (name : str) : str :=
  if isfile then fst (splitext name) else name.

(** The extension the generator reattaches: that of a file, none for a
    directory. *)
Definition kept_extension (isfile : bool) (name : str) : str :=
  if isfile then snd (splitext name) else [].

(** The components the generator counts and rejoins. *)
Definition new_components (isfile : bool) (old_name : str) (char : ascii)
  : list str :=
  name_components char
    (strip char (EXCLUDED_CHARS_sub char (sanitized_portion isfile old_name))).

(** ** The documentation's reading of the replacement step

    The second definition follows the words "replace every run of
    disallowed characters with [char]": a maximal run of excluded
    characters yields one [char].  [in_run] tells that the previous
    character was excluded. *)

Fixpoint sub_runs_from (char : ascii) (in_run : bool) (s : str) : str :=
  match s with
  | [] => []
  | a :: t =>
      if is_excluded a then
        if in_run then sub_runs_from char true t
        else char :: sub_runs_from char true t
      else a :: sub_runs_from char false t
  end.

Definition sub_runs (char : ascii) (s : str) : str :=
  sub_runs_from char false s.

Definition generate_new_pathname_by_runs
  (isfile : bool) (old_name : str) (char : ascii) : str :=
  if isfile then
    let (root, extension) := splitext old_name in
    let new_root := strip char (sub_runs char root) in
    let components := name_components char new_root in
    if (List.length components <? 2)%nat then old_name
    else join char components ++ extension
  else
    let new_name := strip char (sub_runs char old_name) in
    let components := name_components char new_name in
    if (List.length components <? 2)%nat then old_name
    else join char components.

(** ** Shapes of names *)

Definition starts_with (char : ascii) (s : str) : bool :=
  match s with
  | [] => false
  | a :: _ => a =? char
  end.

Fixpoint ends_with (char : ascii) (s : str) : bool :=
  match s with
  | [] => false
  | [a] => a =? char
  | _ :: t => ends_with char t
  end.

Fixpoint has_double (char : ascii) (s : str) : bool :=
  match s with
  | [] => false
  | a :: t => (a =? char) && starts_with char t || has_double char t
  end.

(** Only allowed characters, and [char] neither leads, trails nor
    repeats. *)
Definition well_separated (char : ascii) (s : str) : bool :=
  forallb is_allowed s
  && negb (starts_with char s)
  && negb (ends_with char s)
  && negb (has_double char s).

(** A non-empty string of [char] alone. *)
Definition only_char (char : ascii) (s : str) : bool :=
  non_empty s && forallb (fun a => a =? char) s.

Abbreviation allowed := (fun a : ascii => is_allowed a = true).
Abbreviation not_dot := (fun a : ascii => a <> ".").

(** Two strings with the same first piece and the same non-empty later
    pieces. *)
Definition same_pieces (char : ascii) (x y : str) : Prop :=
  fst (split_aux char x) = fst (split_aux char y)
  /\ filter non_empty (snd (split_aux char x))
     = filter non_empty (snd (split_aux char y)).

(** A component as [name_components] keeps them. *)
Definition piece_ok (char : ascii) (x : str) : Prop :=
  x <> [] /\ ~ In char x.

(** Dots first, and none after the first other character: a name
    without extension. *)
Definition dots_first (p : str) : Prop := ~ In "." (lstrip "." p).

(** ** The file system

    A canonical path is the list of its components below the root.  A
    directory holds its entries in the order [os.scandir] lists them.
    The tree has regular files, directories and entries that are
    neither ([Special]); it has no symbolic links, so a canonical path
    names one entry and [os.walk] descends into every directory. *)

Abbreviation path := (list (list ascii)) (only parsing).

#[local] Set Warnings "-register-all".

Inductive node : Type :=
| File : node
| Special : node
| Dir : list (list ascii * node) -> node.

Abbreviation entries := (list (list ascii * node)) (only parsing).

Fixpoint assoc (k : str) (es : entries) : option node :=
  match es with
  | [] => None
  | (k', v) :: rest => if str_eqb k' k then Some v else assoc k rest
  end.

Fixpoint lookup (p : path) (n : node) : option node :=
  match p with
  | [] => Some n
  | x :: p' =>
      match n with
      | Dir es =>
          match assoc x es with
          | Some v => lookup p' v
          | None => None
          end
      | _ => None
      end
  end.

Definition is_dir (n : node) : bool :=
  match n with
  | Dir _ => true
  | _ => false
  end.

Definition is_file (n : node) : bool :=
  match n with
  | File => true
  | _ => false
  end.

(** [os.path.join(dirpath, name)] *)
Definition path_join (dirpath : path) (name : str) : path := dirpath ++ [name].

(** The names [os.walk] sorts into [dirs] and [nondirs]. *)
Definition dirs (es : entries) : list str :=
  map fst (filter (fun e => is_dir (snd e)) es).

Definition nondirs (es : entries) : list str :=
  map fst (filter (fun e => negb (is_dir (snd e))) es).

(** [os.walk(top, topdown=False)]: the triples of the subdirectories, in
    the order of [dirs], then the triple of [top].  What is not a
    directory yields nothing. *)
Fixpoint walk (top : path) (n : node)
  : list (path * list (list ascii) * list (list ascii)) :=
  match n with
  | Dir es =>
      (fix walk_entries (l : entries) :=
         match l with
         | [] => []
         | (k, v) :: rest => walk (path_join top k) v ++ walk_entries rest
         end) es
      ++ [(top, dirs es, nondirs es)]
  | _ => []
  end.

(** [get_children(directory)], on the node found at [directory]. *)
Definition get_children (directory : path) (n : node) : list path :=
  flat_map
    (fun '(dirpath, subFolders, filenames) =>
       map (path_join dirpath) filenames ++ map (path_join dirpath) subFolders)
    (walk directory n).

(** The order in which [rename_file] hands a directory and, when
    [recursive], its descendants to [sanitize_file_name]. *)
Definition rename_order (recursive : bool) (top : path) (n : node)
  : list path :=
  (if recursive then get_children top n else []) ++ [top].

(** [a] is a proper ancestor of [x]. *)
Definition is_ancestor (a x : path) : Prop :=
  exists rest, rest <> [] /\ x = a ++ rest.

(** No path is followed by one of its descendants. *)
Fixpoint deepest_first (l : list path) : Prop :=
  match l with
  | [] => True
  | a :: t => (forall x, In x t -> ~ is_ancestor a x) /\ deepest_first t
  end.

Fixpoint distinct (l : list str) : bool :=
  match l with
  | [] => true
  | x :: t => negb (existsb (str_eqb x) t) && distinct t
  end.

(** The names of a directory are pairwise distinct, at every depth. *)
Fixpoint well_formed (n : node) : bool :=
  match n with
  | Dir es =>
      distinct (map fst es)
      && (fix all (l : entries) :=
            match l with
            | [] => true
            | (_, v) :: rest => well_formed v && all rest
            end) es
  | _ => true
  end.

(** ** Effects: the file system, standard output, exceptions and exit

    Every call into [os] is recorded, so that "before any file system
    access" can be stated. *)

Inductive fs_op : Type :=
| OpRealpath (p : path)
| OpExists (p : path)
| OpIsfile (p : path)
| OpIsdir (p : path)
| OpListdir (p : path)
| OpWalk (p : path)
| OpReplace (src dst : path).

Definition is_mutation (op : fs_op) : bool :=
  match op with
  | OpReplace _ _ => true
  | _ => false
  end.

Record world : Type := World {
  fs : node;                          (* the tree below the root *)
  stdout : list (path * path);        (* the lines "src ===> dest" *)
  calls : list fs_op                  (* the calls into [os], in order *)
}.

Inductive exn : Type :=
| ValueError_single_character (char : str)
| ValueError_special_character (char : str)
| FileNotFoundError (p : path)
| FileRenameError (new_name : str)
| OSError (p : path)
| ValueError_remove (x : str).

(** How a computation ends: normally, by an exception, or by
    [sys.exit(status)]. *)
Inductive outcome (A : Type) : Type :=
| Return (a : A)
| Raise (e : exn)
| Exit (status : Z).

Arguments Return {A} a.
Arguments Raise {A} e.
Arguments Exit {A} status.

Definition M (A : Type) : Type := world -> outcome A * world.

Definition ret {A : Type} (a : A) : M A := fun w => (Return a, w).

Definition bind {A B : Type} (m : M A) (k : A -> M B) : M B :=
  fun w =>
    match m w with
    | (Return a, w') => k a w'
    | (Raise e, w') => (Raise e, w')
    | (Exit status, w') => (Exit status, w')
    end.

Definition raise {A : Type} (e : exn) : M A := fun w => (Raise e, w).

Definition sys_exit {A : Type} (status : Z) : M A :=
  fun w => (Exit status, w).

Notation "x <- m ;; k" := (bind m (fun x => k))
  (at level 61, m at next level, right associativity).
Notation "m ;;; k" := (bind m (fun _ => k))
  (at level 61, right associativity).

Fixpoint for_each {A : Type} (l : list A) (body : A -> M unit) : M unit :=
  match l with
  | [] => ret tt
  | x :: rest => body x ;;; for_each rest body
  end.

Definition record (op : fs_op) (w : world) : world :=
  World (fs w) (stdout w) (calls w ++ [op]).

(** *** The calls into [os] *)

(** Paths are canonical here, [os.path.realpath] returns its argument. *)
Definition os_path_realpath (p : path) : M path :=
  fun w => (Return p, record (OpRealpath p) w).

Definition os_path_exists (p : path) : M bool :=
  fun w =>
    (Return (match lookup p (fs w) with Some _ => true | None => false end),
     record (OpExists p) w).

Definition os_path_isfile (p : path) : M bool :=
  fun w =>
    (Return (match lookup p (fs w) with Some n => is_file n | None => false end),
     record (OpIsfile p) w).

Definition os_path_isdir (p : path) : M bool :=
  fun w =>
    (Return (match lookup p (fs w) with Some n => is_dir n | None => false end),
     record (OpIsdir p) w).

Definition os_listdir (d : path) : M (list str) :=
  fun w =>
    match lookup d (fs w) with
    | Some (Dir es) => (Return (map fst es), record (OpListdir d) w)
    | _ => (Raise (OSError d), record (OpListdir d) w)
    end.

(** The entries of a directory after [old_name] took the name
    [new_name]: an entry that bore [new_name] is replaced. *)
Definition rename_entry (old_name new_name : str) (es : entries) : entries :=
  if str_eqb old_name new_name then es
  else
    map (fun e => if str_eqb (fst e) old_name then (new_name, snd e) else e)
      (filter (fun e => negb (str_eqb (fst e) new_name)) es).

(** [modify d f n] applies [f] to the entries of the directory at [d]. *)
Fixpoint modify (d : path) (f : entries -> entries) (n : node) : node :=
  match n with
  | Dir es =>
      match d with
      | [] => Dir (f es)
      | x :: d' =>
          Dir (map (fun e =>
                      if str_eqb (fst e) x
                      then (fst e, modify d' f (snd e)) else e) es)
      end
  | _ => n
  end.

(** [os.replace(os.path.join(dirname, old_name),
                os.path.join(dirname, new_name))].
    The destination is replaced whatever it is: the weakest protection
    the operating system can give a sibling. *)
Definition os_replace (dirname : path) (old_name new_name : str) : M unit :=
  fun w =>
    let op := OpReplace (path_join dirname old_name)
                (path_join dirname new_name) in
    match lookup (path_join dirname old_name) (fs w) with
    | Some _ =>
        (Return tt,
         World (modify dirname (rename_entry old_name new_name) (fs w))
           (stdout w) (calls w ++ [op]))
    | None => (Raise (OSError (path_join dirname old_name)), record op w)
    end.

Definition print (src dest : path) : M unit :=
  fun w => (Return tt, World (fs w) (stdout w ++ [(src, dest)]) (calls w)).

(** [get_children(directory)] on the current tree. *)
Definition os_get_children (directory : path) : M (list path) :=
  fun w =>
    (Return (match lookup directory (fs w) with
             | Some n => get_children directory n
             | None => []
             end),
     record (OpWalk directory) w).

(** [l.remove(x)]: the first occurrence goes, [None] for ValueError. *)
Fixpoint list_remove (x : str) (l : list str) : option (list str) :=
  match l with
  | [] => None
  | y :: rest =>
      if str_eqb y x then Some rest
      else match list_remove x rest with
           | Some rest' => Some (y :: rest')
           | None => None
           end
  end.

Definition mem (x : str) (l : list str) : bool := existsb (str_eqb x) l.

(** [os.path.split(file_path)] *)
Definition os_path_split (file_path : path) : path * str :=
  (removelast file_path, last file_path []).

(** ** The rename engine *)

(** [generate_new_pathname(file_path, char)] on the current tree. *)
Definition generate_new_pathname_at (file_path : path) (char : ascii) : M str :=
  let (_, old_name) := os_path_split file_path in
  isfile <- os_path_isfile file_path ;;
  ret (generate_new_pathname isfile old_name char).

Definition sanitize_file_name
  (file_path : path) (char : ascii) (verbose suppress_errors : bool) : M unit :=
  let (dirname, old_name) := os_path_split file_path in
  new_name <- generate_new_pathname_at file_path char ;;
  (* Avoid renaming a sibling which already bears this new name *)
  listing <- os_listdir dirname ;;
  match list_remove old_name listing with
  | None => raise (ValueError_remove old_name)
  | Some siblings =>
      if mem new_name siblings then
        if negb suppress_errors then raise (FileRenameError new_name)
        else ret tt
      else
        if negb (str_eqb new_name old_name) then
          os_replace dirname old_name new_name ;;;
          if verbose
          then print (path_join dirname old_name) (path_join dirname new_name)
          else ret tt
        else ret tt
  end.

(** The check that every resolved path exists. *)
Definition check_exists (resolved_paths : list path) (suppress_errors : bool)
  : M unit :=
  for_each resolved_paths
    (fun path =>
       found <- os_path_exists path ;;
       if negb found then
         if negb suppress_errors then raise (FileNotFoundError path)
         else sys_exit 1%Z
       else ret tt).

(** The body of the second loop of [rename_file]. *)
Definition rename_path
  (char : ascii) (recursive verbose suppress_errors : bool) (path : path)
  : M unit :=
  isfile <- os_path_isfile path ;;
  if isfile then sanitize_file_name path char verbose suppress_errors
  else
    isdir <- os_path_isdir path ;;
    if isdir then
      (if recursive then
         children <- os_get_children path ;;
         for_each children
           (fun child => sanitize_file_name child char verbose suppress_errors)
       else ret tt) ;;;
      sanitize_file_name path char verbose suppress_errors
    else
      (* Not a regular file or directory *)
      ret tt.

Fixpoint resolve_all (files : list path) : M (list path) :=
  match files with
  | [] => ret []
  | file :: rest =>
      p <- os_path_realpath file ;;
      ps <- resolve_all rest ;;
      ret (p :: ps)
  end.

(** [rename_file(char, *files, recursive, verbose, suppress_errors)].
    [char] is a string: its length is the first thing checked. *)
Definition rename_file
  (char : str) (files : list path) (recursive verbose suppress_errors : bool)
  : M unit :=
  match char with
  | [c] =>
      if is_excluded c then
        if negb suppress_errors
        then raise (ValueError_special_character char)
        else sys_exit 1%Z
      else
        resolved_paths <- resolve_all files ;;
        check_exists resolved_paths suppress_errors ;;;
        for_each resolved_paths
          (rename_path c recursive verbose suppress_errors)
  | _ =>
      if negb suppress_errors
      then raise (ValueError_single_character char)
      else sys_exit 1%Z
  end.

(** ** Conditions of the error paths *)

(** [char] passes the two checks of [rename_file]. *)
Definition valid_char (char : str) : bool :=
  match char with
  | [c] => is_allowed c
  | _ => false
  end.

(** The first of the paths that does not exist. *)
Fixpoint first_missing (n : node) (paths : list path) : option path :=
  match paths with
  | [] => None
  | p :: rest =>
      match lookup p n with
      | Some _ => first_missing n rest
      | None => Some p
      end
  end.

(** The calls of the validation phase. *)
Definition is_validation_call (op : fs_op) : bool :=
  match op with
  | OpRealpath _ | OpExists _ => true
  | _ => false
  end.

(** The candidate name [sanitize_file_name] computes for [file_path]. *)
Definition candidate_at (file_path : path) (char : ascii) (w : world) : str :=
  generate_new_pathname
    (match lookup file_path (fs w) with Some n => is_file n | None => false end)
    (snd (os_path_split file_path)) char.

(** The siblings of [file_path]: the listing of its parent without the
    first occurrence of its own basename. *)
Definition siblings_at (file_path : path) (w : world) : option (list str) :=
  match lookup (fst (os_path_split file_path)) (fs w) with
  | Some (Dir es) => list_remove (snd (os_path_split file_path)) (map fst es)
  | _ => None
  end.

(** The test [new_name in siblings]. *)
Definition collides (file_path : path) (char : ascii) (w : world) : bool :=
  match siblings_at file_path w with
  | Some siblings => mem (candidate_at file_path char w) siblings
  | None => false
  end.

(** The world after the two reads every call of [sanitize_file_name]
    on an existing entry makes. *)
Definition after_reads (file_path : path) (w : world) : world :=
  record (OpListdir (fst (os_path_split file_path)))
    (record (OpIsfile file_path) w).

(** *** A small tree for the examples: /d holds "a 1.txt" and "a_1.txt",
    and a folder "New Folder" with the file "Child File.txt". *)
Definition sample_fs : node :=
  Dir [(s2l "d",
        Dir [(s2l "a 1.txt", File);
             (s2l "a_1.txt", File);
             (s2l "New Folder", Dir [(s2l "Child File.txt", File)])])].

Definition sample_world : world := World sample_fs [] [].

(** ** Further notions for the properties below *)

(** A character other than the separator. *)
Definition is_other (char : ascii) (a : ascii) : bool := negb (a =? char).

(** The tail of [y] after the prefix [d], when [d] is a prefix of [y]. *)
Fixpoint strip_prefix (d y : path) : option path :=
  match d, y with
  | [], _ => Some y
  | k :: d', k' :: y' => if str_eqb k k' then strip_prefix d' y' else None
  | _ :: _, [] => None
  end.

(** The number of entries of a tree, at every depth. *)
Fixpoint size (n : node) : nat :=
  match n with
  | Dir es =>
      (fix sum (l : entries) : nat :=
         match l with
         | [] => 0
         | (_, v) :: rest => S (size v) + sum rest
         end) es
  | _ => 0
  end.

(** The world after [sanitize_file_name] gave [file_path] the name
    [new_name]: two reads, the rename, and the notice when [verbose]. *)
Definition renamed_world
  (file_path : path) (new_name : str) (verbose : bool) (w : world) : world :=
  let dirname := fst (os_path_split file_path) in
  let old_name := snd (os_path_split file_path) in
  World (modify dirname (rename_entry old_name new_name) (fs w))
    (stdout w
     ++ (if verbose
         then [(path_join dirname old_name, path_join dirname new_name)]
         else []))
    (calls w
     ++ [OpIsfile file_path; OpListdir dirname;
         OpReplace (path_join dirname old_name)
           (path_join dirname new_name)]).

(** The errors the program itself raises: the two about the
    substitution character, the missing path and the collision. *)
Definition checked_error (e : exn) : bool :=
  match e with
  | ValueError_single_character _ | ValueError_special_character _
  | FileNotFoundError _ | FileRenameError _ => true
  | OSError _ | ValueError_remove _ => false
  end.

(** The call a printed notice stands for. *)
Definition replace_of (line : list (list ascii) * list (list ascii)) : fs_op :=
  OpReplace (fst line) (snd line).

(** What a run adds to the output and to the calls: when [verbose] one
    notice per rename, in order, and no notice otherwise. *)
Definition notices_match (verbose : bool) (w w' : world) : Prop :=
  exists lines ops,
    stdout w' = stdout w ++ lines /\ calls w' = calls w ++ ops
    /\ if verbose then filter is_mutation ops = map replace_of lines
       else lines = [].

(** Names stay distinct and no entry is gained or lost. *)
Definition tree_kept (w w' : world) : Prop :=
  well_formed (fs w) = true ->
  well_formed (fs w') = true /\ size (fs w') = size (fs w).

(** [m] leaves every world in relation [R] with the world it started
    from. *)
Definition keeps (R : world -> world -> Prop) (A : Type) (m : M A) : Prop :=
  forall w, R w (snd (m w)).

(** How a run may end under [suppress_errors]: an exit only when it is
    set, one of the program's own errors only when it is not. *)
Definition ends_as (suppress_errors : bool) (A : Type) (o : outcome A) : Prop :=
  match o with
  | Return _ => True
  | Raise e => checked_error e = true -> suppress_errors = false
  | Exit status => suppress_errors = true /\ status = 1%Z
  end.

(** An end other than [sys.exit]. *)
Definition no_exit (A : Type) (o : outcome A) : Prop :=
  match o with
  | Exit _ => False
  | _ => True
  end.

(** Tree and output are what they were. *)
Definition untouched (w w' : world) : Prop :=
  fs w' = fs w /\ stdout w' = stdout w.

(** An end that is a normal return or, when errors are not suppressed,
    a rename collision. *)
Definition collision_or_return (suppress_errors : bool) (o : outcome unit)
  : Prop :=
  match o with
  | Return _ => True
  | Raise e => suppress_errors = false /\ exists name, e = FileRenameError name
  | Exit _ => False
  end.

(** ** The command line

    What [parser.parse_args()] returns: the three flags, the substitution
    character (["_"] when the option is absent) and the paths. *)
Record namespace : Type := Namespace {
  args_suppress_errors : bool;
  args_quiet : bool;
  args_recursive : bool;
  args_char : list ascii;
  args_files : list (list (list ascii))
}.

(** The call at the end of the script. *)
Definition main (args : namespace) : M unit :=
  rename_file (args_char args) (args_files args)
    (args_recursive args) (negb (args_quiet args))
    (args_suppress_errors args).

(** Two worlds with the same tree and the same calls made. *)
Definition same_but_output (w1 w2 : world) : Prop :=
  fs w1 = fs w2 /\ calls w1 = calls w2.

(** Started in such worlds, [m1] and [m2] end alike in such worlds. *)
Definition alike (A : Type) (m1 m2 : M A) : Prop :=
  forall w1 w2,
    same_but_output w1 w2 ->
    fst (m1 w1) = fst (m2 w2)
    /\ same_but_output (snd (m1 w1)) (snd (m2 w2)).

(* ================================================================== *)
(** * Properties *)

(** ** Scenarios of the documentation *)

Example scenario_file :
  generate_new_pathname true (s2l "my file (2023).txt") "_"
  = s2l "my_file_2023.txt".
Proof. reflexivity. Qed.

Example scenario_stars :
  generate_new_pathname true (s2l "***.txt") "_" = s2l "***.txt".
Proof. reflexivity. Qed.

Example scenario_folder :
  generate_new_pathname false (s2l "New Folder") "-" = s2l "New-Folder".
Proof. reflexivity. Qed.

Example scenario_classes :
  map is_allowed (s2l "aZ09-._ /*[`@{")
  = [true; true; true; true; true; true; true;
     false; false; false; false; false; false; false].
Proof. reflexivity. Qed.

Example scenario_dots :
  splitext (s2l "a.") = (s2l "a", s2l ".")
  /\ splitext (s2l "..a") = (s2l "..a", [])
  /\ splitext (s2l "a..b") = (s2l "a.", s2l ".b")
  /\ splitext (s2l ".") = (s2l ".", []).
Proof. repeat split. Qed.

Example scenario_hidden :
  splitext (s2l ".bashrc") = (s2l ".bashrc", []).
Proof. reflexivity. Qed.

Example scenario_tar_gz :
  splitext (s2l "archive.tar.gz") = (s2l "archive.tar", s2l ".gz").
Proof. reflexivity. Qed.

(** ** Scenarios of the rename engine *)

Example scenario_collision_raised :
  fst (rename_file (s2l "_") [[s2l "d"; s2l "a 1.txt"]] false true false
         sample_world)
  = Raise (FileRenameError (s2l "a_1.txt")).
Proof. reflexivity. Qed.

Example scenario_recursive :
  let w := snd (rename_file (s2l "_") [[s2l "d"; s2l "New Folder"]]
                  true true false sample_world) in
  stdout w
  = [([s2l "d"; s2l "New Folder"; s2l "Child File.txt"],
      [s2l "d"; s2l "New Folder"; s2l "Child_File.txt"]);
     ([s2l "d"; s2l "New Folder"], [s2l "d"; s2l "New_Folder"])]
  /\ lookup [s2l "d"; s2l "New_Folder"; s2l "Child_File.txt"] (fs w)
     = Some File.
Proof. split; reflexivity. Qed.

Example scenario_not_recursive :
  let w := snd (rename_file (s2l "-") [[s2l "d"; s2l "New Folder"]]
                  false false false sample_world) in
  stdout w = []
  /\ lookup [s2l "d"; s2l "New-Folder"; s2l "Child File.txt"] (fs w)
     = Some File.
Proof. split; reflexivity. Qed.

(** ** Splitting, stripping and joining *)

Section Pieces.

Variable c : ascii.

Lemma split_aux_pair (s : str) :
  split_aux c s = (fst (split_aux c s), snd (split_aux c s)).
Proof. destruct (split_aux c s); reflexivity. Qed.

Lemma split_aux_sep (t : str) :
  split_aux c (c :: t) = ([], fst (split_aux c t) :: snd (split_aux c t)).
Proof.
  simpl. destruct (split_aux c t) as [h r]. now rewrite Ascii.eqb_refl.
Qed.

Lemma split_aux_other (a : ascii) (t : str) :
  a <> c ->
  split_aux c (a :: t) = (a :: fst (split_aux c t), snd (split_aux c t)).
Proof.
  intros Hac. simpl. destruct (split_aux c t) as [h r].
  apply Ascii.eqb_neq in Hac. now rewrite Hac.
Qed.

Lemma split_eq (s : str) :
  split c s = fst (split_aux c s) :: snd (split_aux c s).
Proof. unfold split. now destruct (split_aux c s). Qed.

Lemma name_components_sep (t : str) :
  name_components c (c :: t) = name_components c t.
Proof.
  unfold name_components. rewrite !split_eq, split_aux_sep. reflexivity.
Qed.

Lemma name_components_other (a : ascii) (t : str) :
  a <> c ->
  name_components c (a :: t)
  = (a :: fst (split_aux c t)) :: filter non_empty (snd (split_aux c t)).
Proof.
  intros Hac. unfold name_components.
  rewrite split_eq, split_aux_other by assumption. reflexivity.
Qed.

Lemma same_pieces_refl (x : str) : same_pieces c x x.
Proof. split; reflexivity. Qed.

Lemma same_pieces_components (x y : str) :
  same_pieces c x y -> name_components c x = name_components c y.
Proof.
  intros [Hh Hr]. unfold name_components. rewrite !split_eq. simpl.
  rewrite Hh, Hr. reflexivity.
Qed.

Lemma same_pieces_sep (x y : str) :
  name_components c x = name_components c y ->
  same_pieces c (c :: x) (c :: y).
Proof.
  intros H. unfold same_pieces. rewrite !split_aux_sep. simpl.
  split; [reflexivity|].
  unfold name_components in H. rewrite !split_eq in H. exact H.
Qed.

Lemma same_pieces_cons (a : ascii) (x y : str) :
  same_pieces c x y -> same_pieces c (a :: x) (a :: y).
Proof.
  intros H. destruct (ascii_dec a c) as [->|Hac].
  - apply same_pieces_sep, same_pieces_components, H.
  - destruct H as [Hh Hr]. unfold same_pieces.
    rewrite !split_aux_other by assumption. simpl. now rewrite Hh, Hr.
Qed.

Lemma name_components_lstrip (s : str) :
  name_components c (lstrip c s) = name_components c s.
Proof.
  induction s as [|a t IH]; [reflexivity|].
  simpl. destruct (Ascii.eqb_spec a c) as [->|Hac].
  - now rewrite name_components_sep.
  - reflexivity.
Qed.

Lemma same_pieces_rstrip (s : str) : same_pieces c (rstrip c s) s.
Proof.
  induction s as [|a t IH]; [apply same_pieces_refl|].
  simpl. destruct (rstrip c t) as [|b r] eqn:Hr; simpl.
  - destruct (Ascii.eqb_spec a c) as [->|Hac].
    + unfold same_pieces. rewrite split_aux_sep. simpl. split; [reflexivity|].
      apply same_pieces_components in IH.
      unfold name_components in IH. rewrite !split_eq in IH. exact IH.
    + now apply same_pieces_cons.
  - now apply same_pieces_cons.
Qed.

Lemma name_components_strip (s : str) :
  name_components c (strip c s) = name_components c s.
Proof.
  unfold strip.
  rewrite (same_pieces_components (same_pieces_rstrip (lstrip c s))).
  apply name_components_lstrip.
Qed.

End Pieces.

(** ** Per-character replacement against replacement of runs *)

Lemma sub_runs_from_pieces (c : ascii) (s : str) :
  same_pieces c (sub_runs_from c false s) (EXCLUDED_CHARS_sub c s)
  /\ name_components c (sub_runs_from c true s)
     = name_components c (EXCLUDED_CHARS_sub c s).
Proof.
  induction s as [|a t [IHf IHt]].
  - split; [apply same_pieces_refl | reflexivity].
  - simpl. destruct (is_excluded a).
    + split.
      * now apply same_pieces_sep.
      * now rewrite name_components_sep.
    + split.
      * now apply same_pieces_cons.
      * now apply same_pieces_components, same_pieces_cons.
Qed.

Lemma name_components_sub_runs (c : ascii) (s : str) :
  name_components c (strip c (sub_runs c s))
  = name_components c (strip c (EXCLUDED_CHARS_sub c s)).
Proof.
  rewrite !name_components_strip.
  apply same_pieces_components, sub_runs_from_pieces.
Qed.

(** ** Pieces free of the separator *)

Section Join.

Variable c : ascii.

Lemma split_aux_free (s : str) :
  ~ In c (fst (split_aux c s))
  /\ Forall (fun x => ~ In c x) (snd (split_aux c s)).
Proof.
  induction s as [|a t [IHh IHr]]; simpl.
  - split; [tauto | constructor].
  - rewrite (split_aux_pair c t).
    destruct (Ascii.eqb_spec a c) as [->|Hac]; simpl.
    + split; [tauto | now constructor].
    + split; [intros [E|E]; [now apply Hac | now apply IHh] | exact IHr].
Qed.

Lemma split_aux_all (P : ascii -> Prop) (s : str) :
  Forall P s ->
  Forall P (fst (split_aux c s)) /\ Forall (Forall P) (snd (split_aux c s)).
Proof.
  induction 1 as [|a t Ha Ht [IHh IHr]]; simpl.
  - split; constructor.
  - rewrite (split_aux_pair c t).
    destruct (a =? c); simpl; split; auto.
Qed.

Lemma name_components_ok (s : str) :
  Forall (piece_ok c) (name_components c s).
Proof.
  unfold name_components. rewrite split_eq.
  destruct (split_aux_free s) as [Hh Hr].
  apply Forall_forall. intros x Hx. apply filter_In in Hx.
  destruct Hx as [Hin Hne]. split.
  - destruct x; [discriminate | congruence].
  - destruct Hin as [<-|Hin]; [exact Hh|].
    rewrite Forall_forall in Hr. now apply Hr.
Qed.

Lemma name_components_all (P : ascii -> Prop) (s : str) :
  Forall P s -> Forall (Forall P) (name_components c s).
Proof.
  intros H. unfold name_components. rewrite split_eq.
  destruct (split_aux_all H) as [Hh Hr].
  apply Forall_forall. intros x Hx. apply filter_In in Hx.
  destruct Hx as [[<-|Hin] _]; [exact Hh|].
  rewrite Forall_forall in Hr. now apply Hr.
Qed.

Lemma split_aux_whole (x : str) :
  ~ In c x -> split_aux c x = (x, []).
Proof.
  induction x as [|a t IH]; intros H; [reflexivity|].
  rewrite split_aux_other by (intros ->; apply H; now left).
  rewrite IH by (intros E; apply H; now right). reflexivity.
Qed.

Lemma split_aux_app_sep (x z : str) :
  ~ In c x ->
  split_aux c (x ++ c :: z)
  = (x, fst (split_aux c z) :: snd (split_aux c z)).
Proof.
  induction x as [|a t IH]; intros H.
  - apply split_aux_sep.
  - rewrite <- app_comm_cons.
    rewrite split_aux_other by (intros ->; apply H; now left).
    rewrite IH by (intros E; apply H; now right). reflexivity.
Qed.

Lemma join_cons2 (x y : str) (l : list str) :
  join c (x :: y :: l) = x ++ c :: join c (y :: l).
Proof. reflexivity. Qed.

Lemma split_join (l : list str) :
  l <> [] -> Forall (fun x => ~ In c x) l -> split c (join c l) = l.
Proof.
  intros Hne H. revert Hne.
  induction H as [|x l Hx Hl IH]; intros Hne; [now elim Hne|].
  destruct l as [|y l].
  - simpl. rewrite split_eq, split_aux_whole by assumption. reflexivity.
  - rewrite join_cons2, split_eq, split_aux_app_sep by assumption.
    cbn [fst snd]. rewrite <- split_eq. f_equal. now apply IH.
Qed.

Lemma filter_non_empty_ok (l : list str) :
  Forall (piece_ok c) l -> filter non_empty l = l.
Proof.
  induction 1 as [|x l [Hx _] Hl IH]; [reflexivity|].
  simpl. destruct x; [congruence|]. simpl. now rewrite IH.
Qed.

Lemma piece_ok_free (l : list str) :
  Forall (piece_ok c) l -> Forall (fun x => ~ In c x) l.
Proof. apply Forall_impl. now intros x [_ H]. Qed.

Lemma name_components_join (l : list str) :
  Forall (piece_ok c) l -> name_components c (join c l) = l.
Proof.
  intros H. destruct l as [|x l]; [reflexivity|].
  unfold name_components.
  rewrite split_join by (try discriminate; now apply piece_ok_free).
  now apply filter_non_empty_ok.
Qed.

Lemma join_split (s : str) : join c (split c s) = s.
Proof.
  rewrite split_eq. induction s as [|a t IH]; [reflexivity|].
  simpl split_aux. rewrite (split_aux_pair c t).
  destruct (Ascii.eqb_spec a c) as [->|Hac].
  - cbn [fst snd]. rewrite join_cons2, IH. reflexivity.
  - cbn [fst snd]. destruct (snd (split_aux c t)) as [|y r].
    + simpl in *. now rewrite IH.
    + rewrite join_cons2 in *. rewrite <- app_comm_cons. now rewrite IH.
Qed.

Lemma join_all (P : ascii -> Prop) (l : list str) :
  P c -> Forall (Forall P) l -> Forall P (join c l).
Proof.
  intros Hc. induction 1 as [|x l Hx Hl IH]; [constructor|].
  destruct l as [|y l]; [exact Hx|].
  rewrite join_cons2. apply Forall_app. split; [exact Hx|].
  constructor; assumption.
Qed.

Lemma join_app_last (l : list str) (x : str) :
  l <> [] -> join c (l ++ [x]) = join c l ++ c :: x.
Proof.
  induction l as [|y l IH]; [congruence|]. intros _.
  destruct l as [|z l]; [reflexivity|].
  rewrite <- !app_comm_cons, !join_cons2, app_comm_cons, IH by discriminate.
  now rewrite <- app_assoc.
Qed.

End Join.

(** ** Shapes of joined and of well separated names *)

Section Shapes.

Variable c : ascii.

Lemma lstrip_id (s : str) : starts_with c s = false -> lstrip c s = s.
Proof. destruct s as [|a t]; simpl; [reflexivity|]. now intros ->. Qed.

Lemma rstrip_id (s : str) : ends_with c s = false -> rstrip c s = s.
Proof.
  induction s as [|a t IH]; [reflexivity|].
  intros H. simpl. destruct t as [|b t].
  - simpl in *. now rewrite H.
  - rewrite IH by exact H. reflexivity.
Qed.

Lemma strip_id (s : str) :
  starts_with c s = false -> ends_with c s = false -> strip c s = s.
Proof.
  intros Hs He. unfold strip. rewrite lstrip_id by assumption.
  now apply rstrip_id.
Qed.

Lemma sub_id (s : str) :
  forallb is_allowed s = true -> EXCLUDED_CHARS_sub c s = s.
Proof.
  induction s as [|a t IH]; [reflexivity|].
  simpl. intros H. apply andb_prop in H. destruct H as [Ha Ht].
  unfold is_excluded. rewrite Ha. simpl. now rewrite IH.
Qed.

Lemma starts_with_app (x y : str) :
  x <> [] -> starts_with c (x ++ y) = starts_with c x.
Proof. destruct x; [congruence | reflexivity]. Qed.

Lemma starts_with_free (x : str) : ~ In c x -> starts_with c x = false.
Proof.
  destruct x as [|a t]; [reflexivity|]. simpl. intros H.
  apply Ascii.eqb_neq. intros ->. apply H. now left.
Qed.

Lemma ends_with_app (x y : str) :
  y <> [] -> ends_with c (x ++ y) = ends_with c y.
Proof.
  intros Hy. induction x as [|a t IH]; [reflexivity|].
  rewrite <- app_comm_cons. simpl.
  destruct (t ++ y) eqn:E; [|exact IH].
  apply app_eq_nil in E. destruct E as [_ ->]. congruence.
Qed.

Lemma ends_with_cons (a : ascii) (t : str) :
  t <> [] -> ends_with c (a :: t) = ends_with c t.
Proof. destruct t; [congruence | reflexivity]. Qed.

Lemma ends_with_free (x : str) : ~ In c x -> ends_with c x = false.
Proof.
  induction x as [|a t IH]; [reflexivity|]. intros H.
  destruct t as [|b t].
  - simpl. apply Ascii.eqb_neq. intros ->. apply H. now left.
  - change (ends_with c (b :: t) = false). apply IH.
    intros E. apply H. now right.
Qed.

Lemma has_double_free (x y : str) :
  ~ In c x -> x <> [] -> has_double c (x ++ y) = has_double c y.
Proof.
  induction x as [|a t IH]; [congruence|]. intros H _.
  assert (Ha : (a =? c) = false)
    by (apply Ascii.eqb_neq; intros ->; apply H; now left).
  rewrite <- app_comm_cons. simpl. rewrite Ha. simpl.
  destruct t as [|b t]; [reflexivity|].
  apply IH; [intros E; apply H; now right | discriminate].
Qed.

Lemma has_double_whole (x : str) : ~ In c x -> has_double c x = false.
Proof.
  induction x as [|a t IH]; [reflexivity|]. intros H.
  simpl. rewrite IH by (intros E; apply H; now right).
  replace (a =? c) with false; [reflexivity|].
  symmetry. apply Ascii.eqb_neq. intros ->. apply H. now left.
Qed.

Lemma join_nonempty (l : list str) :
  l <> [] -> Forall (piece_ok c) l -> join c l <> [].
Proof.
  intros Hne H. destruct H as [|x l [Hx _] Hl]; [congruence|].
  destruct l; [exact Hx|]. rewrite join_cons2.
  destruct x; [congruence | discriminate].
Qed.

Lemma join_starts (l : list str) :
  Forall (piece_ok c) l -> starts_with c (join c l) = false.
Proof.
  intros H. destruct H as [|x l [Hx Hf] Hl]; [reflexivity|].
  destruct l.
  - now apply starts_with_free.
  - rewrite join_cons2, starts_with_app by assumption.
    now apply starts_with_free.
Qed.

Lemma join_ends (l : list str) :
  Forall (piece_ok c) l -> ends_with c (join c l) = false.
Proof.
  induction 1 as [|x l [Hx Hf] Hl IH]; [reflexivity|].
  destruct l.
  - now apply ends_with_free.
  - rewrite join_cons2, ends_with_app by discriminate.
    rewrite ends_with_cons; [exact IH|].
    apply join_nonempty; [discriminate | assumption].
Qed.

Lemma join_no_double (l : list str) :
  Forall (piece_ok c) l -> has_double c (join c l) = false.
Proof.
  induction 1 as [|x l [Hx Hf] Hl IH]; [reflexivity|].
  destruct l.
  - now apply has_double_whole.
  - rewrite join_cons2, has_double_free by assumption.
    change (has_double c (c :: join c (l :: l0)))
      with ((c =? c) && starts_with c (join c (l :: l0))
            || has_double c (join c (l :: l0))).
    rewrite IH, join_starts by assumption.
    now rewrite andb_false_r.
Qed.

(** Every piece of a well separated, non-empty string is non-empty. *)
Lemma split_aux_separated (s : str) :
  has_double c s = false -> ends_with c s = false ->
  Forall (fun x => non_empty x = true) (snd (split_aux c s)).
Proof.
  induction s as [|a t IH]; intros Hd He; [constructor|].
  simpl in Hd. apply orb_false_elim in Hd. destruct Hd as [Hd1 Hd2].
  assert (Het : t <> [] -> ends_with c t = false).
  { destruct t; [congruence|]. intros _. exact He. }
  destruct (Ascii.eqb_spec a c) as [->|Hac].
  - rewrite split_aux_sep. cbn [snd].
    destruct t as [|b t]; [simpl in He; now rewrite Ascii.eqb_refl in He|].
    simpl in Hd1. constructor.
    + apply Ascii.eqb_neq in Hd1.
      rewrite split_aux_other by assumption. reflexivity.
    + apply IH; [exact Hd2 | apply Het; discriminate].
  - rewrite split_aux_other by assumption. cbn [snd].
    destruct t as [|b t]; [constructor|].
    apply IH; [exact Hd2 | apply Het; discriminate].
Qed.

Lemma filter_all_true (A : Type) (f : A -> bool) (l : list A) :
  Forall (fun x => f x = true) l -> filter f l = l.
Proof.
  induction 1 as [|x l Hx Hl IH]; [reflexivity|].
  simpl. now rewrite Hx, IH.
Qed.

Lemma name_components_separated (s : str) :
  s <> [] ->
  starts_with c s = false -> ends_with c s = false ->
  has_double c s = false ->
  name_components c s = split c s.
Proof.
  intros Hne Hs He Hd. unfold name_components.
  apply filter_all_true. rewrite split_eq. constructor.
  - destruct s as [|a t]; [congruence|]. simpl in Hs.
    apply Ascii.eqb_neq in Hs. rewrite split_aux_other by assumption.
    reflexivity.
  - now apply split_aux_separated.
Qed.

End Shapes.

(** ** Root and extension *)

Lemma rfind_none (a : ascii) (s : str) : rfind a s = None <-> ~ In a s.
Proof.
  induction s as [|x t IH]; simpl; [tauto|].
  destruct (rfind a t) as [i|].
  - split; [discriminate|]. intros H. exfalso. apply H. right.
    destruct (in_dec ascii_dec a t) as [Hi|Hn]; [exact Hi|].
    apply IH in Hn. discriminate.
  - destruct (Ascii.eqb_spec x a) as [->|Hxa].
    + split; [discriminate | intros H; exfalso; apply H; now left].
    + split; [|reflexivity]. intros _ [E|E]; [now apply Hxa|].
      revert E. now apply IH.
Qed.

Lemma rfind_some (a : ascii) (s : str) (i : nat) :
  rfind a s = Some i ->
  exists e, s = firstn i s ++ a :: e /\ skipn i s = a :: e /\ ~ In a e.
Proof.
  revert i. induction s as [|x t IH]; intros i; simpl; [discriminate|].
  destruct (rfind a t) as [j|] eqn:E.
  - intros [= <-]. destruct (IH j eq_refl) as (e & H1 & H2 & H3).
    exists e. simpl. repeat split; [now rewrite <- H1 | exact H2 | exact H3].
  - destruct (Ascii.eqb_spec x a) as [->|Hxa]; [|discriminate].
    intros [= <-]. exists t. simpl. repeat split. now apply rfind_none.
Qed.

Lemma rfind_app (a : ascii) (r e : str) :
  ~ In a e -> rfind a (r ++ a :: e) = Some (List.length r).
Proof.
  intros He. induction r as [|x r IH]; simpl.
  - apply rfind_none in He. rewrite He. now rewrite Ascii.eqb_refl.
  - now rewrite IH.
Qed.

Lemma firstn_length_app (A : Type) (r y : list A) :
  firstn (List.length r) (r ++ y) = r.
Proof. induction r; simpl; [reflexivity | now f_equal]. Qed.

Lemma skipn_length_app (A : Type) (r y : list A) :
  skipn (List.length r) (r ++ y) = y.
Proof. induction r; simpl; [reflexivity | assumption]. Qed.

Lemma splitext_app_eq (p : str) : fst (splitext p) ++ snd (splitext p) = p.
Proof.
  unfold splitext. destruct (rfind "." p) as [i|]; simpl.
  - destruct (forallb is_dot (firstn i p)); simpl.
    + apply app_nil_r.
    + apply firstn_skipn.
  - apply app_nil_r.
Qed.

(** A root with a character other than the dot, then a dot, then no
    further dot: that is how a name with an extension splits. *)
Lemma splitext_app (r e : str) :
  forallb is_dot r = false -> ~ In "." e ->
  splitext (r ++ "." :: e) = (r, "." :: e).
Proof.
  intros Hr He. unfold splitext.
  rewrite rfind_app, firstn_length_app, skipn_length_app, Hr by assumption.
  reflexivity.
Qed.

Lemma splitext_ext (p : str) :
  snd (splitext p) <> [] ->
  exists e, snd (splitext p) = "." :: e /\ ~ In "." e
            /\ forallb is_dot (fst (splitext p)) = false.
Proof.
  unfold splitext. destruct (rfind "." p) as [i|] eqn:E; simpl.
  - destruct (forallb is_dot (firstn i p)) eqn:F; simpl; [congruence|].
    intros _. destruct (rfind_some _ _ E) as (e & _ & H2 & H3).
    exists e. auto.
  - congruence.
Qed.

Lemma lstrip_incl (c a : ascii) (s : str) : In a (lstrip c s) -> In a s.
Proof.
  induction s as [|x t IH]; simpl; [tauto|].
  destruct (x =? c); [intros H; right; now apply IH | tauto].
Qed.

Lemma lstrip_app_all (c : ascii) (d y : str) :
  forallb (fun a => a =? c) d = true -> lstrip c (d ++ y) = lstrip c y.
Proof.
  induction d as [|x d IH]; simpl; [reflexivity|].
  intros H. apply andb_prop in H. destruct H as [-> H]. now apply IH.
Qed.

Lemma lstrip_app_other (d y : str) :
  forallb is_dot d = false -> In "." (lstrip "." (d ++ "." :: y)).
Proof.
  induction d as [|x d IH]; simpl; [discriminate|].
  unfold is_dot at 1. destruct (x =? ".") eqn:E; simpl.
  - exact IH.
  - intros _. right. apply in_or_app. right. now left.
Qed.

Lemma splitext_dots_first (p : str) :
  snd (splitext p) = [] <-> dots_first p.
Proof.
  unfold splitext, dots_first. destruct (rfind "." p) as [i|] eqn:E; simpl.
  - destruct (rfind_some _ _ E) as (e & H1 & H2 & H3).
    destruct (forallb is_dot (firstn i p)) eqn:F; simpl.
    + split; [intros _|reflexivity].
      rewrite H1, lstrip_app_all by exact F. simpl.
      intros H. apply H3. revert H. apply lstrip_incl.
    + split; [rewrite H2; discriminate|].
      intros H. exfalso. apply H. rewrite H1. now apply lstrip_app_other.
  - split; [intros _|reflexivity]. apply rfind_none in E.
    intros H. apply E. revert H. apply lstrip_incl.
Qed.

Lemma splitext_no_ext (p : str) : dots_first p -> splitext p = (p, []).
Proof.
  intros H. apply splitext_dots_first in H.
  rewrite (surjective_pairing (splitext p)), H.
  f_equal. rewrite <- (splitext_app_eq p) at 2. rewrite H.
  now rewrite app_nil_r.
Qed.

Lemma dots_first_split (p : str) :
  dots_first p ->
  exists d t, p = d ++ t /\ forallb is_dot d = true /\ ~ In "." t.
Proof.
  unfold dots_first. induction p as [|x p IH]; simpl.
  - intros _. exists [], []. auto.
  - destruct (x =? ".") eqn:E.
    + intros H. destruct (IH H) as (d & t & -> & Hd & Ht).
      exists (x :: d), t. simpl. unfold is_dot at 1. rewrite E. auto.
    + intros H. exists [], (x :: p). auto.
Qed.

Lemma dots_first_app (d t : str) :
  forallb is_dot d = true -> ~ In "." t -> dots_first (d ++ t).
Proof.
  intros Hd Ht. unfold dots_first. rewrite lstrip_app_all by exact Hd.
  intros H. apply Ht. revert H. apply lstrip_incl.
Qed.

(** ** The name generator, as one equation for files and directories *)

Lemma generate_new_pathname_eq (isfile : bool) (old_name : str) (c : ascii) :
  generate_new_pathname isfile old_name c
  = if (List.length (new_components isfile old_name c) <? 2)%nat
    then old_name
    else join c (new_components isfile old_name c)
         ++ kept_extension isfile old_name.
Proof.
  unfold generate_new_pathname, new_components, sanitized_portion,
    kept_extension.
  destruct isfile.
  - now destruct (splitext old_name).
  - now rewrite app_nil_r.
Qed.

Lemma new_components_eq (isfile : bool) (old_name : str) (c : ascii) :
  new_components isfile old_name c
  = name_components c
      (EXCLUDED_CHARS_sub c (sanitized_portion isfile old_name)).
Proof. apply name_components_strip. Qed.

Lemma sub_allowed (c : ascii) (s : str) :
  is_allowed c = true -> Forall allowed (EXCLUDED_CHARS_sub c s).
Proof.
  intros Hc. induction s as [|a t IH]; constructor; [|exact IH].
  unfold is_excluded. destruct (is_allowed a) eqn:E; simpl; assumption.
Qed.

Lemma Forall_forallb (A : Type) (f : A -> bool) (l : list A) :
  Forall (fun x => f x = true) l <-> forallb f l = true.
Proof.
  rewrite forallb_forall, Forall_forall. reflexivity.
Qed.

Lemma new_components_ok (isfile : bool) (old_name : str) (c : ascii) :
  Forall (piece_ok c) (new_components isfile old_name c).
Proof. apply name_components_ok. Qed.

Lemma new_components_allowed (isfile : bool) (old_name : str) (c : ascii) :
  is_allowed c = true ->
  Forall (Forall allowed) (new_components isfile old_name c).
Proof.
  intros Hc. rewrite new_components_eq.
  apply name_components_all. now apply sub_allowed.
Qed.

(** Sanitizing a joined list of clean components gives the list back. *)
Lemma name_components_of_join (c : ascii) (l : list str) :
  is_allowed c = true ->
  Forall (piece_ok c) l -> Forall (Forall allowed) l ->
  name_components c (strip c (EXCLUDED_CHARS_sub c (join c l))) = l.
Proof.
  intros Hc Hok Hal. rewrite name_components_strip, sub_id.
  - now apply name_components_join.
  - apply Forall_forallb. now apply join_all.
Qed.

Lemma join_well_separated (c : ascii) (l : list str) :
  is_allowed c = true ->
  Forall (piece_ok c) l -> Forall (Forall allowed) l ->
  well_separated c (join c l) = true.
Proof.
  intros Hc Hok Hal. unfold well_separated.
  rewrite join_starts, join_ends, join_no_double by assumption.
  rewrite !andb_true_r. apply Forall_forallb. now apply join_all.
Qed.

Lemma not_all_dots (s : str) (a : ascii) :
  In a s -> a <> "." -> forallb is_dot s = false.
Proof.
  intros Hin Ha. destruct (forallb is_dot s) eqn:E; [|reflexivity].
  rewrite forallb_forall in E. apply E in Hin. unfold is_dot in Hin.
  apply Ascii.eqb_eq in Hin. contradiction.
Qed.

Lemma join_head_not_dot (l : list str) :
  l <> [] -> Forall (piece_ok ".") l -> forallb is_dot (join "." l) = false.
Proof.
  intros Hne Hok.
  pose proof (join_nonempty Hne Hok) as Hj.
  pose proof (join_starts Hok) as Hs.
  destruct (join "." l) as [|a t]; [congruence|].
  simpl in *. unfold is_dot at 1. now rewrite Hs.
Qed.

Lemma join_not_all_dots (c : ascii) (l : list str) :
  (2 <= List.length l)%nat -> Forall (piece_ok c) l ->
  forallb is_dot (join c l) = false.
Proof.
  intros Hlen Hok. destruct (ascii_dec c ".") as [->|Hc].
  - apply join_head_not_dot; [|exact Hok]. destruct l; simpl in *; [lia|].
    discriminate.
  - destruct l as [|x [|y l]]; simpl in Hlen; try lia.
    rewrite join_cons2. apply not_all_dots with (a := c); [|exact Hc].
    apply in_or_app. right. now left.
Qed.

(** ** How a generated file name splits again *)

Lemma split_aux_app_free (c : ascii) (d y : str) :
  ~ In c d ->
  split_aux c (d ++ y)
  = (d ++ fst (split_aux c y), snd (split_aux c y)).
Proof.
  induction d as [|a d IH]; intros H; simpl app.
  - apply split_aux_pair.
  - rewrite split_aux_other by (intros ->; apply H; now left).
    rewrite IH by (intros E; apply H; now right). reflexivity.
Qed.

Lemma join_head_app (c : ascii) (d h : str) (l : list str) :
  join c ((d ++ h) :: l) = d ++ join c (h :: l).
Proof.
  destruct l; [reflexivity|]. rewrite !join_cons2. now rewrite app_assoc.
Qed.

Lemma not_in_Forall (a : ascii) (s : str) :
  ~ In a s <-> Forall (fun x => x <> a) s.
Proof.
  rewrite Forall_forall. split.
  - intros H x Hx ->. now apply H.
  - intros H Hin. now apply (H a Hin).
Qed.

Lemma Forall_filter (A : Type) (P : A -> Prop) (f : A -> bool) (l : list A) :
  Forall P l -> Forall P (filter f l).
Proof.
  rewrite !Forall_forall. intros H x Hx. apply filter_In in Hx.
  apply H, Hx.
Qed.

Lemma sub_not_dot (c : ascii) (t : str) :
  c <> "." -> Forall not_dot t -> Forall not_dot (EXCLUDED_CHARS_sub c t).
Proof.
  intros Hc. induction 1 as [|a t Ha Ht IH]; constructor; [|exact IH].
  now destruct (is_excluded a).
Qed.

Lemma sub_dots (c : ascii) (d : str) :
  forallb is_dot d = true -> EXCLUDED_CHARS_sub c d = d.
Proof.
  intros H. apply sub_id. apply Forall_forallb.
  apply Forall_forallb in H. revert H. apply Forall_impl.
  intros a Ha. unfold is_dot in Ha. apply Ascii.eqb_eq in Ha. now subst.
Qed.

Lemma dots_free (c : ascii) (d : str) :
  c <> "." -> forallb is_dot d = true -> ~ In c d.
Proof.
  intros Hc H Hin. rewrite forallb_forall in H. apply H in Hin.
  unfold is_dot in Hin. apply Ascii.eqb_eq in Hin. contradiction.
Qed.

(** With a separator other than the dot, a root with its dots first
    keeps them first. *)
Lemma join_dots_first (c : ascii) (root : str) :
  c <> "." -> dots_first root ->
  dots_first (join c (name_components c (EXCLUDED_CHARS_sub c root))).
Proof.
  intros Hc Hroot.
  destruct (dots_first_split Hroot) as (d & t & -> & Hd & Ht).
  apply not_in_Forall in Ht.
  pose proof (sub_not_dot Hc Ht) as Hsub.
  destruct d as [|x d].
  - simpl app. apply (dots_first_app [] _ eq_refl).
    apply not_in_Forall. apply join_all; [exact Hc|].
    now apply name_components_all.
  - unfold EXCLUDED_CHARS_sub. rewrite map_app.
    fold (EXCLUDED_CHARS_sub c (x :: d)). fold (EXCLUDED_CHARS_sub c t).
    rewrite (sub_dots c _ Hd).
    unfold name_components.
    rewrite split_eq, split_aux_app_free by (now apply dots_free).
    cbn [fst snd]. simpl filter. rewrite app_comm_cons, join_head_app.
    apply dots_first_app; [exact Hd|].
    apply not_in_Forall. apply join_all; [exact Hc|].
    destruct (split_aux_all c Hsub) as [Hh Hr].
    constructor; [exact Hh | now apply Forall_filter].
Qed.

Lemma removelast_ok (A : Type) (P : A -> Prop) (l : list A) :
  Forall P l -> Forall P (removelast l).
Proof.
  destruct l as [|x l]; [trivial|]. intros H.
  rewrite (app_removelast_last x) in H by discriminate.
  now apply Forall_app in H.
Qed.

Lemma removelast_nonempty (A : Type) (l : list A) :
  (2 <= List.length l)%nat -> removelast l <> [].
Proof. destruct l as [|x [|y l]]; simpl; try lia. discriminate. Qed.

Lemma last_ok (A : Type) (P : A -> Prop) (l : list A) (d : A) :
  l <> [] -> Forall P l -> P (last l d).
Proof.
  intros Hne H. rewrite (app_removelast_last d Hne) in H.
  apply Forall_app in H. destruct H as [_ H]. now inversion H.
Qed.

(** With the dot as separator and no extension, the last component of
    the generated name is its extension. *)
Lemma splitext_join_dot (l : list str) :
  (2 <= List.length l)%nat -> Forall (piece_ok ".") l ->
  splitext (join "." l) = (join "." (removelast l), "." :: last l []).
Proof.
  intros Hlen Hok.
  assert (Hne : l <> []) by (destruct l; simpl in *; [lia | discriminate]).
  rewrite (app_removelast_last [] Hne) at 1.
  rewrite join_app_last by now apply removelast_nonempty.
  apply splitext_app.
  - apply join_head_not_dot;
      [now apply removelast_nonempty | now apply removelast_ok].
  - now apply (last_ok (P := piece_ok ".")).
Qed.

(** With an extension, or a separator other than the dot, the
    generated name splits into the generated root and the extension. *)
Lemma splitext_generated (old_name : str) (c : ascii) :
  (2 <= List.length (new_components true old_name c))%nat ->
  snd (splitext old_name) <> [] \/ c <> "." ->
  splitext (join c (new_components true old_name c)
            ++ snd (splitext old_name))
  = (join c (new_components true old_name c), snd (splitext old_name)).
Proof.
  intros Hlen H.
  destruct (list_eq_dec ascii_dec (snd (splitext old_name)) []) as [E|E].
  - destruct H as [H|Hc]; [contradiction|].
    rewrite E, app_nil_r. apply splitext_no_ext.
    rewrite new_components_eq. apply join_dots_first; [exact Hc|].
    apply splitext_dots_first in E. unfold sanitized_portion.
    now rewrite (splitext_no_ext E).
  - destruct (splitext_ext _ E) as (e & -> & He & _).
    apply splitext_app; [|exact He].
    apply join_not_all_dots; [exact Hlen | apply new_components_ok].
Qed.

(** ** What a rebuilt name looks like to the generator

    Whenever the generator rebuilds a name, the result is a joined list
    of clean components followed by the extension that the generator
    would keep when applied to the result. *)

Lemma rebuilt_name (isfile : bool) (old_name : str) (c : ascii) :
  is_allowed c = true ->
  (2 <= List.length (new_components isfile old_name c))%nat ->
  let result :=
    join c (new_components isfile old_name c)
    ++ kept_extension isfile old_name in
  exists l,
    l <> [] /\ Forall (piece_ok c) l /\ Forall (Forall allowed) l
    /\ sanitized_portion isfile result = join c l
    /\ result = join c l ++ kept_extension isfile result.
Proof.
  intros Hc Hlen result.
  pose proof (new_components_ok isfile old_name c) as Hok.
  pose proof (@new_components_allowed isfile old_name c Hc) as Hal.
  assert (Hne : new_components isfile old_name c <> [])
    by (destruct (new_components isfile old_name c);
        simpl in *; [lia | discriminate]).
  destruct isfile.
  - destruct (list_eq_dec ascii_dec (snd (splitext old_name)) []) as [E|E];
      [destruct (ascii_dec c ".") as [->|Hdot]|].
    + (* no extension, the dot as separator *)
      exists (removelast (new_components true old_name ".")).
      subst result. unfold kept_extension, sanitized_portion.
      rewrite E, app_nil_r, splitext_join_dot by assumption.
      cbn [fst snd].
      repeat split.
      * now apply removelast_nonempty.
      * now apply removelast_ok.
      * now apply removelast_ok.
      * rewrite <- join_app_last by now apply removelast_nonempty.
        now rewrite <- app_removelast_last.
    + exists (new_components true old_name c).
      subst result. unfold kept_extension, sanitized_portion.
      rewrite splitext_generated by auto. cbn [fst snd]. auto.
    + exists (new_components true old_name c).
      subst result. unfold kept_extension, sanitized_portion.
      rewrite splitext_generated by auto. cbn [fst snd]. auto.
  - exists (new_components false old_name c).
    subst result. unfold kept_extension, sanitized_portion.
    rewrite app_nil_r. auto.
Qed.

Lemma generate_new_pathname_cases (isfile : bool) (old_name : str) (c : ascii) :
  generate_new_pathname isfile old_name c = old_name
  \/ (2 <= List.length (new_components isfile old_name c))%nat
     /\ generate_new_pathname isfile old_name c
        = join c (new_components isfile old_name c)
          ++ kept_extension isfile old_name.
Proof.
  rewrite generate_new_pathname_eq.
  destruct (Nat.ltb_spec (List.length (new_components isfile old_name c)) 2);
    [now left | now right].
Qed.

(** A name whose sanitized portion is a joined list of clean components
    is what the generator returns for it. *)
Lemma generate_new_pathname_joined
  (isfile : bool) (name : str) (c : ascii) (l : list str) :
  is_allowed c = true ->
  Forall (piece_ok c) l -> Forall (Forall allowed) l ->
  sanitized_portion isfile name = join c l ->
  name = join c l ++ kept_extension isfile name ->
  generate_new_pathname isfile name c = name.
Proof.
  intros Hc Hok Hal Hp Hn. rewrite generate_new_pathname_eq.
  unfold new_components. rewrite Hp, name_components_of_join by assumption.
  destruct (List.length l <? 2)%nat; [reflexivity | now symmetry].
Qed.

Lemma sanitized_portion_app (isfile : bool) (name : str) :
  sanitized_portion isfile name ++ kept_extension isfile name = name.
Proof.
  destruct isfile; simpl; [apply splitext_app_eq | apply app_nil_r].
Qed.

Lemma well_separated_parts (c : ascii) (s : str) :
  well_separated c s = true ->
  forallb is_allowed s = true /\ starts_with c s = false
  /\ ends_with c s = false /\ has_double c s = false.
Proof.
  unfold well_separated. intros H.
  repeat (apply andb_prop in H; destruct H as [H ?]).
  repeat match goal with
         | E : negb _ = true |- _ => apply negb_true_iff in E
         end.
  auto.
Qed.

(** ** Properties of the name generator *)

(** C3 (minimum-component policy): when the sanitized portion (the root
    of a file, the whole name of a directory), after replacement,
    trimming and splitting on the substitution character, has fewer than
    two non-empty components, the generator returns the original
    basename, extension included. *)
Theorem minimum_component_policy (isfile : bool) (old_name : str) (c : ascii) :
  is_allowed c = true ->
  (List.length
     (name_components c
        (strip c (EXCLUDED_CHARS_sub c (sanitized_portion isfile old_name))))
   < 2)%nat ->
  generate_new_pathname isfile old_name c = old_name.
Proof.
  intros _ Hlen. rewrite generate_new_pathname_eq. unfold new_components.
  apply Nat.ltb_lt in Hlen. now rewrite Hlen.
Qed.

Lemma minimum_component_policy_witness :
  generate_new_pathname true (s2l "***.txt") "_" = s2l "***.txt"
  /\ generate_new_pathname false (s2l "a") "_" = s2l "a".
Proof.
  split; apply minimum_component_policy;
    solve [reflexivity | vm_compute; lia].
Defined.

(** C6 (extension preservation): for a file whose basename splits into
    a root and a non-empty extension, the name the generator returns is
    either the original basename or the rejoined components followed by
    that extension, and in both cases it splits again into a root and
    exactly the same extension. *)
Theorem extension_preserved (old_name : str) (c : ascii) :
  is_allowed c = true ->
  snd (splitext old_name) <> [] ->
  let new_name := generate_new_pathname true old_name c in
  snd (splitext new_name) = snd (splitext old_name)
  /\ new_name = fst (splitext new_name) ++ snd (splitext old_name)
  /\ (new_name = old_name
      \/ new_name = join c (new_components true old_name c)
                    ++ snd (splitext old_name)).
Proof.
  intros _ Hext new_name.
  assert (H : snd (splitext new_name) = snd (splitext old_name)
              /\ (new_name = old_name
                  \/ new_name = join c (new_components true old_name c)
                                ++ snd (splitext old_name))).
  { subst new_name.
    destruct (generate_new_pathname_cases true old_name c) as [->|[Hlen ->]].
    - auto.
    - unfold kept_extension. rewrite splitext_generated by auto. auto. }
  destruct H as [H1 H2]. repeat split; [exact H1 | | exact H2].
  rewrite <- H1. symmetry. apply splitext_app_eq.
Qed.

Lemma extension_preserved_witness :
  snd (splitext (generate_new_pathname true (s2l "a (b) c!.tar.gz") "-"))
  = s2l ".gz".
Proof.
  apply (@extension_preserved (s2l "a (b) c!.tar.gz") "-");
    [reflexivity | vm_compute; discriminate].
Defined.

(** C8 (refinement): replacing every excluded character by one copy of
    the substitution character, as the code does, and replacing every
    maximal run of excluded characters by a single one, as the
    documentation says, give the same candidate name after the trim,
    split, filter and rejoin steps. *)
Theorem replacement_by_runs_agrees
  (isfile : bool) (old_name : str) (c : ascii) :
  is_allowed c = true ->
  generate_new_pathname_by_runs isfile old_name c
  = generate_new_pathname isfile old_name c.
Proof.
  intros _. unfold generate_new_pathname_by_runs, generate_new_pathname.
  destruct isfile.
  - destruct (splitext old_name) as [root extension].
    now rewrite name_components_sub_runs.
  - now rewrite name_components_sub_runs.
Qed.

Lemma replacement_by_runs_agrees_witness :
  sub_runs "_" (s2l "my file (2023)") <>
  EXCLUDED_CHARS_sub "_" (s2l "my file (2023)")
  /\ generate_new_pathname_by_runs true (s2l "my file (2023).txt") "_"
     = generate_new_pathname true (s2l "my file (2023).txt") "_".
Proof.
  split; [vm_compute; discriminate|].
  apply replacement_by_runs_agrees. reflexivity.
Defined.

(** C10 (shape of rebuilt names): whenever the generator returns a name
    different from the original basename, the sanitized portion of the
    returned name (the root of a file, the whole name of a directory) is
    non-empty, holds allowed characters only, neither begins nor ends
    with the substitution character and never repeats it; the same
    holds of the root the generator rebuilt, which the extension
    follows. *)
Theorem rebuilt_name_well_separated
  (isfile : bool) (old_name : str) (c : ascii) :
  is_allowed c = true ->
  generate_new_pathname isfile old_name c <> old_name ->
  let new_name := generate_new_pathname isfile old_name c in
  let new_root := join c (new_components isfile old_name c) in
  (sanitized_portion isfile new_name <> []
   /\ forallb is_allowed (sanitized_portion isfile new_name) = true
   /\ starts_with c (sanitized_portion isfile new_name) = false
   /\ ends_with c (sanitized_portion isfile new_name) = false
   /\ has_double c (sanitized_portion isfile new_name) = false)
  /\ new_name = new_root ++ kept_extension isfile old_name
  /\ new_root <> [] /\ well_separated c new_root = true.
Proof.
  intros Hc Hneq new_name new_root. subst new_name new_root.
  destruct (generate_new_pathname_cases isfile old_name c)
    as [E|[Hlen E]]; [contradiction|].
  rewrite E.
  destruct (@rebuilt_name isfile old_name c Hc Hlen)
    as (l & Hne & Hok & Hal & Hp & _).
  rewrite Hp.
  pose proof (@join_well_separated c l Hc Hok Hal) as Hw.
  apply well_separated_parts in Hw.
  pose proof (new_components_ok isfile old_name c) as Hok'.
  repeat split; try tauto.
  - now apply join_nonempty.
  - apply join_nonempty; [|exact Hok'].
    destruct (new_components isfile old_name c); simpl in *;
      [lia | discriminate].
  - apply join_well_separated; [exact Hc | exact Hok'|].
    now apply new_components_allowed.
Qed.

Lemma rebuilt_name_well_separated_witness :
  well_separated "." (join "." (new_components true (s2l ".my  file") "."))
  = true.
Proof.
  apply (@rebuilt_name_well_separated true (s2l ".my  file") ".");
    [reflexivity | vm_compute; discriminate].
Defined.

(** C7 as stated fails: a file name of allowed characters in which the
    substitution character neither leads, trails nor repeats is changed
    when its root ends with that character. *)
Lemma idempotence_on_whole_name_fails :
  ~ (forall (isfile : bool) (name : str) (c : ascii),
        is_allowed c = true ->
        well_separated c name = true ->
        generate_new_pathname isfile name c = name).
Proof.
  intros H.
  specialize (H true (s2l "a_b_.txt") "_" eq_refl eq_refl).
  vm_compute in H. discriminate.
Qed.

(** C7, amended (idempotence): a name whose sanitized portion (the root
    of a file, the whole name of a directory) holds allowed characters
    only, with the substitution character neither leading, trailing nor
    repeated, is returned unchanged; and for every basename, applying
    the generator twice gives what applying it once gives. *)
Theorem generate_new_pathname_idempotent
  (isfile : bool) (name : str) (c : ascii) :
  is_allowed c = true ->
  (well_separated c (sanitized_portion isfile name) = true ->
   generate_new_pathname isfile name c = name)
  /\ generate_new_pathname isfile (generate_new_pathname isfile name c) c
     = generate_new_pathname isfile name c.
Proof.
  intros Hc. split.
  - intros Hw. apply well_separated_parts in Hw.
    destruct Hw as (Hal & Hs & He & Hd).
    rewrite generate_new_pathname_eq. unfold new_components.
    rewrite sub_id, strip_id by assumption.
    destruct (sanitized_portion isfile name) as [|a t] eqn:Hp;
      [reflexivity|].
    rewrite name_components_separated by (assumption || discriminate).
    destruct (_ <? 2)%nat; [reflexivity|].
    rewrite join_split, <- Hp. apply sanitized_portion_app.
  - destruct (generate_new_pathname_cases isfile name c)
      as [E|[Hlen E]]; rewrite E; [exact E|].
    destruct (@rebuilt_name isfile name c Hc Hlen)
      as (l & Hne & Hok & Hal & Hp & Hn).
    now apply generate_new_pathname_joined with (l := l).
Qed.

Lemma generate_new_pathname_idempotent_witness :
  generate_new_pathname true (s2l "a_b.tar.gz") "_" = s2l "a_b.tar.gz"
  /\ generate_new_pathname true
       (generate_new_pathname true (s2l ".my  file") ".") "."
     = generate_new_pathname true (s2l ".my  file") ".".
Proof.
  split.
  - apply (@generate_new_pathname_idempotent true (s2l "a_b.tar.gz") "_");
      reflexivity.
  - apply (@generate_new_pathname_idempotent true (s2l ".my  file") ".").
    reflexivity.
Defined.

(** C9 as stated fails: a directory whose name is the substitution
    character alone keeps that name. *)
Lemma all_separator_name_returned :
  ~ (forall (isfile : bool) (old_name : str) (c : ascii),
        is_allowed c = true ->
        only_char c
          (sanitized_portion isfile (generate_new_pathname isfile old_name c))
        = false).
Proof.
  intros H. specialize (H false (s2l "_") "_" eq_refl).
  vm_compute in H. discriminate.
Qed.

Lemma only_char_starts (c : ascii) (s : str) :
  s <> [] -> starts_with c s = false -> only_char c s = false.
Proof.
  destruct s as [|a t]; [congruence|]. simpl. intros _ H.
  unfold only_char. simpl. now rewrite H.
Qed.

(** C9, amended (no new all-separator name): unless the sanitized
    portion of the input basename already consists of the substitution
    character alone, the sanitized portion of the returned name does
    not. *)
Theorem no_new_all_separator_name
  (isfile : bool) (old_name : str) (c : ascii) :
  is_allowed c = true ->
  only_char c (sanitized_portion isfile old_name) = false ->
  only_char c
    (sanitized_portion isfile (generate_new_pathname isfile old_name c))
  = false.
Proof.
  intros Hc H.
  destruct (generate_new_pathname_cases isfile old_name c)
    as [E|[Hlen E]].
  - now rewrite E.
  - rewrite E.
    destruct (@rebuilt_name isfile old_name c Hc Hlen)
      as (l & Hne & Hok & Hal & Hp & _).
    rewrite Hp. apply only_char_starts.
    + now apply join_nonempty.
    + now apply join_starts.
Qed.

Lemma no_new_all_separator_name_witness :
  only_char "_"
    (sanitized_portion true (generate_new_pathname true (s2l "_ _a.txt") "_"))
  = false
  /\ only_char "_"
       (sanitized_portion false (generate_new_pathname false (s2l "***") "_"))
     = false.
Proof.
  split.
  - apply (@no_new_all_separator_name true (s2l "_ _a.txt") "_");
      reflexivity.
  - apply (@no_new_all_separator_name false (s2l "***") "_");
      reflexivity.
Defined.

(** ** The traversal order *)

Lemma str_eqb_eq (x y : str) : str_eqb x y = true <-> x = y.
Proof.
  revert y. induction x as [|a x IH]; intros [|b y]; simpl;
    try (split; [discriminate | congruence]); [tauto|].
  rewrite andb_true_iff, Ascii.eqb_eq, IH.
  split; [intros [-> ->]; reflexivity | intros [= -> ->]; auto].
Qed.

Lemma str_eqb_refl (x : str) : str_eqb x x = true.
Proof. now apply str_eqb_eq. Qed.

Lemma str_eqb_neq (x y : str) : str_eqb x y = false <-> x <> y.
Proof.
  rewrite <- str_eqb_eq. destruct (str_eqb x y); split; congruence.
Qed.

Lemma existsb_str_eqb (x : str) (l : list str) :
  existsb (str_eqb x) l = true <-> In x l.
Proof.
  rewrite existsb_exists. split.
  - intros (y & Hy & E). apply str_eqb_eq in E. now subst.
  - intros H. exists x. split; [exact H | apply str_eqb_refl].
Qed.

Lemma distinct_cons (x : str) (t : list str) :
  distinct (x :: t) = true <-> ~ In x t /\ distinct t = true.
Proof.
  simpl. rewrite andb_true_iff, negb_true_iff, <- existsb_str_eqb.
  destruct (existsb (str_eqb x) t); intuition congruence.
Qed.

Lemma node_ind_nested (P : node -> Prop) :
  P File -> P Special ->
  (forall es, Forall (fun e => P (snd e)) es -> P (Dir es)) ->
  forall n, P n.
Proof.
  intros HF HS HD. fix IH 1. intros [| |es]; [exact HF | exact HS |].
  apply HD. induction es as [|[k v] es IHes]; constructor.
  - apply IH.
  - exact IHes.
Qed.

Lemma walk_Dir (top : path) (es : entries) :
  walk top (Dir es)
  = flat_map (fun e => walk (path_join top (fst e)) (snd e)) es
    ++ [(top, dirs es, nondirs es)].
Proof.
  simpl. f_equal. induction es as [|[k v] es IH]; [reflexivity|].
  simpl. now rewrite IH.
Qed.

Lemma well_formed_Dir (es : entries) :
  well_formed (Dir es)
  = distinct (map fst es) && forallb (fun e => well_formed (snd e)) es.
Proof.
  simpl. f_equal. induction es as [|[k v] es IH]; [reflexivity|].
  simpl. now rewrite IH.
Qed.

Lemma flat_map_flat_map (A B C : Type)
  (f : B -> list C) (g : A -> list B) (l : list A) :
  flat_map f (flat_map g l) = flat_map (fun x => flat_map f (g x)) l.
Proof.
  induction l as [|x l IH]; [reflexivity|].
  simpl. now rewrite flat_map_app, IH.
Qed.

Lemma get_children_Dir (top : path) (es : entries) :
  get_children top (Dir es)
  = flat_map (fun e => get_children (path_join top (fst e)) (snd e)) es
    ++ map (path_join top) (nondirs es) ++ map (path_join top) (dirs es).
Proof.
  unfold get_children. rewrite walk_Dir, flat_map_app, flat_map_flat_map.
  simpl. now rewrite app_nil_r.
Qed.

Lemma is_ancestor_length (a x : path) :
  is_ancestor a x -> (List.length a < List.length x)%nat.
Proof.
  intros (rest & Hne & ->). rewrite length_app.
  destruct rest; [congruence | simpl; lia].
Qed.

Lemma deepest_first_app (l1 l2 : list path) :
  deepest_first l1 -> deepest_first l2 ->
  (forall a x, In a l1 -> In x l2 -> ~ is_ancestor a x) ->
  deepest_first (l1 ++ l2).
Proof.
  induction l1 as [|a l1 IH]; intros H1 H2 Hx; [exact H2|].
  destruct H1 as [Ha H1]. simpl. split.
  - intros x Hin. apply in_app_or in Hin. destruct Hin as [Hin|Hin].
    + now apply Ha.
    + apply Hx; [now left | exact Hin].
  - apply IH; [exact H1 | exact H2|].
    intros b x Hb. apply Hx. now right.
Qed.

Lemma deepest_first_same_length (m : nat) (l : list path) :
  (forall x, In x l -> List.length x = m) -> deepest_first l.
Proof.
  induction l as [|a l IH]; intros H; [exact I|]. simpl. split.
  - intros x Hx Hanc. apply is_ancestor_length in Hanc.
    rewrite (H a), (H x) in Hanc; [lia | now right | now left].
  - apply IH. intros x Hx. apply H. now right.
Qed.

Lemma deepest_first_nth (l : list path) (i j : nat) (a x : path) :
  deepest_first l ->
  nth_error l i = Some a -> nth_error l j = Some x ->
  is_ancestor a x -> (j < i)%nat.
Proof.
  revert i j. induction l as [|h t IH]; intros i j Hl Hi Hj Hanc.
  - destruct i; discriminate.
  - destruct Hl as [Hh Ht]. destruct i as [|i], j as [|j]; simpl in *.
    + injection Hi as ->. injection Hj as ->.
      apply is_ancestor_length in Hanc. lia.
    + injection Hi as ->. apply nth_error_In in Hj.
      exfalso. now apply (Hh x).
    + lia.
    + apply -> Nat.succ_lt_mono. now apply IH.
Qed.

(** Every path of the list lies strictly below [top]. *)
Lemma get_children_below (n : node) :
  forall (top x : path),
    In x (get_children top n) -> exists k rest, x = top ++ k :: rest.
Proof.
  induction n as [| |es IH] using node_ind_nested; intros top x Hx;
    try contradiction.
  rewrite get_children_Dir in Hx.
  apply in_app_or in Hx. destruct Hx as [Hx|Hx].
  - apply in_flat_map in Hx. destruct Hx as (e & He & Hx).
    rewrite Forall_forall in IH.
    destruct (IH e He _ _ Hx) as (k & rest & ->).
    exists (fst e), (k :: rest). unfold path_join.
    now rewrite <- app_assoc.
  - rewrite <- map_app in Hx. apply in_map_iff in Hx.
    destruct Hx as (k & <- & _). now exists k, [].
Qed.

Lemma get_children_deepest_first (n : node) :
  forall top : path,
    well_formed n = true -> deepest_first (get_children top n).
Proof.
  induction n as [| |es IH] using node_ind_nested; intros top Hwf;
    try exact I.
  rewrite get_children_Dir. rewrite well_formed_Dir in Hwf.
  apply andb_prop in Hwf. destruct Hwf as [Hd Hwf].
  apply deepest_first_app.
  - (* the lists of the subdirectories, one after the other *)
    induction es as [|e es IHes]; [exact I|].
    inversion IH as [|? ? IHe IHrest]; subst.
    simpl in Hd, Hwf. apply andb_prop in Hwf. destruct Hwf as [Hwe Hwf].
    apply distinct_cons in Hd. destruct Hd as [Hnotin Hd].
    simpl. apply deepest_first_app; auto.
    intros a x Ha Hx Hanc.
    apply get_children_below in Ha. destruct Ha as (k & ra & ->).
    apply in_flat_map in Hx. destruct Hx as (e' & He' & Hx).
    apply get_children_below in Hx. destruct Hx as (k' & rx & ->).
    destruct Hanc as (rest & _ & E). unfold path_join in E.
    rewrite <- !app_assoc in E. apply app_inv_head in E.
    simpl in E. injection E as E _.
    apply Hnotin. rewrite <- E. now apply in_map.
  - rewrite <- map_app.
    apply deepest_first_same_length with (m := S (List.length top)).
    intros x Hx. apply in_map_iff in Hx. destruct Hx as (k & <- & _).
    unfold path_join. rewrite length_app. simpl. lia.
  - intros a x Ha Hx Hanc. apply is_ancestor_length in Hanc.
    apply in_flat_map in Ha. destruct Ha as (e & _ & Ha).
    apply get_children_below in Ha. destruct Ha as (k & ra & ->).
    rewrite <- map_app in Hx. apply in_map_iff in Hx.
    destruct Hx as (k' & <- & _). unfold path_join in Hanc.
    rewrite !length_app in Hanc. simpl in Hanc. lia.
Qed.

(** Every entry below [top] is listed. *)
Lemma assoc_In (k : str) (es : entries) (v : node) :
  assoc k es = Some v -> In (k, v) es.
Proof.
  induction es as [|[k' v'] es IH]; simpl; [discriminate|].
  destruct (str_eqb k' k) eqn:E.
  - apply str_eqb_eq in E. intros [= ->]. left. now subst.
  - intros H. right. now apply IH.
Qed.

Lemma get_children_complete (n : node) :
  forall (top p : path),
    p <> [] -> lookup p n <> None -> In (top ++ p) (get_children top n).
Proof.
  induction n as [| |es IH] using node_ind_nested; intros top p Hp Hl;
    try (destruct p; [congruence | simpl in Hl; congruence]).
  destruct p as [|k p]; [congruence|]. simpl in Hl.
  destruct (assoc k es) as [v|] eqn:Hk; [|congruence].
  apply assoc_In in Hk. rewrite get_children_Dir.
  destruct p as [|k' p].
  - apply in_or_app. right. rewrite <- map_app.
    change (top ++ [k]) with (path_join top k). apply in_map.
    unfold nondirs, dirs. rewrite <- map_app.
    change k with (fst (k, v)). apply in_map.
    destruct (is_dir v) eqn:Hv.
    + apply in_or_app. right. apply filter_In. now split.
    + apply in_or_app. left. apply filter_In. simpl. now rewrite Hv.
  - apply in_or_app. left. apply in_flat_map. exists (k, v).
    split; [exact Hk|]. simpl. rewrite Forall_forall in IH.
    replace (top ++ k :: k' :: p) with (path_join top k ++ k' :: p)
      by (unfold path_join; now rewrite <- app_assoc).
    apply (IH (k, v) Hk); [discriminate | exact Hl].
Qed.

(** ** Sequencing *)

Lemma for_each_app (A : Type) (l1 l2 : list A) (body : A -> M unit) (w : world) :
  for_each (l1 ++ l2) body w = (for_each l1 body ;;; for_each l2 body) w.
Proof.
  revert w. induction l1 as [|x l1 IH]; intros w; [reflexivity|].
  simpl. unfold bind in *. destruct (body x w) as [[[]| |] w'];
    [apply IH | reflexivity | reflexivity].
Qed.

Lemma for_each_one (A : Type) (x : A) (body : A -> M unit) (w : world) :
  for_each [x] body w = body x w.
Proof.
  simpl. unfold bind, ret. now destruct (body x w) as [[[]| |] w'].
Qed.

(** For a directory and [recursive], the second loop of [rename_file]
    classifies the path, lists the descendants and hands the paths of
    [rename_order] to [sanitize_file_name], in that order. *)
Lemma rename_path_directory
  (c : ascii) (verbose suppress_errors : bool) (top : path) (es : entries)
  (w : world) :
  lookup top (fs w) = Some (Dir es) ->
  rename_path c true verbose suppress_errors top w
  = for_each (rename_order true top (Dir es))
      (fun p => sanitize_file_name p c verbose suppress_errors)
      (record (OpWalk top) (record (OpIsdir top) (record (OpIsfile top) w))).
Proof.
  intros Hl. unfold rename_order. rewrite for_each_app.
  unfold rename_path, bind, os_path_isfile, os_path_isdir, os_get_children.
  rewrite Hl. cbn [is_file]. cbv beta. cbn [record fs].
  rewrite Hl. cbn [is_dir]. cbv beta. cbn [record fs]. rewrite Hl.
  destruct (for_each (get_children top (Dir es)) _ _) as [[[]| |] w'];
    try reflexivity.
  now rewrite for_each_one.
Qed.

(** C1 (deepest-first ordering): for a directory processed with
    [recursive], the paths are handed to [sanitize_file_name] in the
    order of the list built by [get_children] followed by the directory
    itself; that list holds every entry below the directory, each of
    them a descendant of it; and wherever one path of the order is an
    ancestor of another, the descendant comes first. *)
Theorem deepest_first_order (top : path) (es : entries) :
  well_formed (Dir es) = true ->
  let order := rename_order true top (Dir es) in
  (forall c verbose suppress_errors w,
      lookup top (fs w) = Some (Dir es) ->
      rename_path c true verbose suppress_errors top w
      = for_each order
          (fun p => sanitize_file_name p c verbose suppress_errors)
          (record (OpWalk top)
             (record (OpIsdir top) (record (OpIsfile top) w))))
  /\ order = get_children top (Dir es) ++ [top]
  /\ (forall p, p <> [] -> lookup p (Dir es) <> None ->
                In (top ++ p) (get_children top (Dir es)))
  /\ (forall x, In x (get_children top (Dir es)) -> is_ancestor top x)
  /\ (forall i j a x,
         nth_error order i = Some a -> nth_error order j = Some x ->
         is_ancestor a x -> (j < i)%nat).
Proof.
  intros Hwf order.
  assert (Hbelow : forall x, In x (get_children top (Dir es)) ->
                             is_ancestor top x).
  { intros x Hx. apply get_children_below in Hx.
    destruct Hx as (k & rest & ->). now exists (k :: rest). }
  repeat split.
  - intros. now apply rename_path_directory.
  - intros p Hp Hl. now apply get_children_complete.
  - exact Hbelow.
  - intros i j a x Hi Hj Hanc.
    apply (@deepest_first_nth order i j a x); try assumption.
    apply deepest_first_app.
    + now apply get_children_deepest_first.
    + simpl. tauto.
    + intros b y Hb [<-|[]] Hy. apply Hbelow in Hb.
      apply is_ancestor_length in Hb, Hy. lia.
Qed.

Lemma deepest_first_order_witness :
  rename_order true [s2l "d"]
    (Dir [(s2l "x", Dir [(s2l "y", File)]); (s2l "f", File)])
  = [[s2l "d"; s2l "x"; s2l "y"]; [s2l "d"; s2l "f"]; [s2l "d"; s2l "x"]]
    ++ [[s2l "d"]].
Proof.
  apply (@deepest_first_order [s2l "d"]
           [(s2l "x", Dir [(s2l "y", File)]); (s2l "f", File)]).
  reflexivity.
Defined.

(** ** Looking up and modifying the tree *)

Lemma lookup_app (d q : path) :
  forall n m : node, lookup d n = Some m -> lookup (d ++ q) n = lookup q m.
Proof.
  induction d as [|x d IH]; intros n m H; simpl in *.
  - now injection H as ->.
  - destruct n as [| |es]; try discriminate.
    destruct (assoc x es) as [v|]; [now apply IH | discriminate].
Qed.

Lemma assoc_map_modify (x : str) (g : node -> node) (es : entries) :
  assoc x (map (fun e => if str_eqb (fst e) x then (fst e, g (snd e)) else e) es)
  = option_map g (assoc x es).
Proof.
  induction es as [|[k v] es IH]; [reflexivity|].
  simpl. destruct (str_eqb k x) eqn:E; simpl; rewrite E; [reflexivity|].
  exact IH.
Qed.

Lemma lookup_modify (f : entries -> entries) (d q : path) :
  forall (n : node) (es : entries),
    lookup d n = Some (Dir es) ->
    lookup (d ++ q) (modify d f n) = lookup q (Dir (f es)).
Proof.
  induction d as [|x d IH]; intros n es H; simpl in H.
  - injection H as ->. reflexivity.
  - destruct n as [| |es0]; try discriminate.
    destruct (assoc x es0) as [v|] eqn:Hx; [|discriminate].
    change (modify (x :: d) f (Dir es0))
      with (Dir (map (fun e => if str_eqb (fst e) x
                               then (fst e, modify d f (snd e)) else e) es0)).
    rewrite <- app_comm_cons.
    change (lookup (x :: d ++ q) (Dir ?l))
      with (match assoc x l with
            | Some v => lookup (d ++ q) v
            | None => None
            end).
    rewrite assoc_map_modify, Hx. simpl. now apply IH.
Qed.

Lemma assoc_rename_entry (old_name new_name k : str) (es : entries) :
  k <> old_name -> k <> new_name ->
  assoc k (rename_entry old_name new_name es) = assoc k es.
Proof.
  intros Hold Hnew. unfold rename_entry.
  destruct (str_eqb old_name new_name); [reflexivity|].
  induction es as [|[k' v] es IH]; [reflexivity|].
  simpl. destruct (str_eqb k' new_name) eqn:En; simpl.
  - apply str_eqb_eq in En. subst k'.
    replace (str_eqb new_name k) with false
      by (symmetry; apply str_eqb_neq; congruence).
    exact IH.
  - destruct (str_eqb k' old_name) eqn:Eo; simpl.
    + apply str_eqb_eq in Eo. subst k'.
      replace (str_eqb new_name k) with false
        by (symmetry; apply str_eqb_neq; congruence).
      replace (str_eqb old_name k) with false
        by (symmetry; apply str_eqb_neq; congruence).
      exact IH.
    + destruct (str_eqb k' k); [reflexivity | exact IH].
Qed.

Lemma list_remove_keeps (x k : str) (l r : list str) :
  list_remove x l = Some r -> In k l -> k <> x -> In k r.
Proof.
  revert r. induction l as [|y l IH]; intros r; simpl; [discriminate|].
  destruct (str_eqb y x) eqn:E.
  - apply str_eqb_eq in E. subst y. intros [= <-] [Hk|Hk] Hne;
      [congruence | exact Hk].
  - destruct (list_remove x l) as [r'|]; [|discriminate].
    intros [= <-] [Hk|Hk] Hne; [now left | right; now apply IH].
Qed.

Lemma assoc_names (k : str) (es : entries) :
  assoc k es <> None -> In k (map fst es).
Proof.
  destruct (assoc k es) as [v|] eqn:E; [|congruence]. intros _.
  apply assoc_In in E. change k with (fst (k, v)). now apply in_map.
Qed.

Lemma mem_false (x : str) (l : list str) : mem x l = false -> ~ In x l.
Proof.
  unfold mem. intros H Hin. apply existsb_str_eqb in Hin. congruence.
Qed.

(** ** One call of sanitize_file_name *)

Lemma sanitize_file_name_run
  (file_path : path) (c : ascii) (verbose suppress_errors : bool) (w : world) :
  sanitize_file_name file_path c verbose suppress_errors w
  = let dirname := fst (os_path_split file_path) in
    let old_name := snd (os_path_split file_path) in
    let new_name := candidate_at file_path c w in
    match lookup dirname (fs w) with
    | Some (Dir es) =>
        match list_remove old_name (map fst es) with
        | None => (Raise (ValueError_remove old_name), after_reads file_path w)
        | Some siblings =>
            if mem new_name siblings then
              (if suppress_errors then Return tt
               else Raise (FileRenameError new_name),
               after_reads file_path w)
            else if str_eqb new_name old_name then
              (Return tt, after_reads file_path w)
            else
              (os_replace dirname old_name new_name ;;;
               if verbose
               then print (path_join dirname old_name)
                      (path_join dirname new_name)
               else ret tt) (after_reads file_path w)
        end
    | _ => (Raise (OSError dirname), after_reads file_path w)
    end.
Proof.
  unfold sanitize_file_name, generate_new_pathname_at, candidate_at,
    after_reads, os_path_split.
  cbn [fst snd]. unfold bind at 1 2 3. unfold os_path_isfile, ret at 1.
  unfold os_listdir. cbn [fs record].
  destruct (lookup (removelast file_path) (fs w)) as [[| |es]|];
    try reflexivity.
  destruct (list_remove (last file_path []) (map fst es)) as [siblings|];
    [|reflexivity].
  destruct (mem _ siblings).
  - destruct suppress_errors; reflexivity.
  - destruct (str_eqb _ (last file_path [])); reflexivity.
Qed.

Lemma sibling_kept
  (dirname : path) (old_name new_name k : str) (es : entries)
  (siblings : list str) (n : node) :
  lookup dirname n = Some (Dir es) ->
  list_remove old_name (map fst es) = Some siblings ->
  mem new_name siblings = false ->
  k <> old_name -> lookup (path_join dirname k) n <> None ->
  lookup (path_join dirname k)
    (modify dirname (rename_entry old_name new_name) n)
  = lookup (path_join dirname k) n.
Proof.
  intros Hd Hrm Hmem Hk Hex. unfold path_join in *.
  rewrite (lookup_app _ [k] _ Hd) in Hex.
  rewrite (lookup_modify _ _ [k] _ Hd), (lookup_app _ [k] _ Hd).
  simpl in *. rewrite assoc_rename_entry; [reflexivity | exact Hk|].
  intros ->. apply (mem_false _ _ Hmem).
  apply (list_remove_keeps _ Hrm); [|exact Hk].
  apply assoc_names. now destruct (assoc new_name es).
Qed.

Lemma sanitize_file_name_collision
  (file_path : path) (c : ascii) (verbose suppress_errors : bool) (w : world) :
  collides file_path c w = true ->
  sanitize_file_name file_path c verbose suppress_errors w
  = (if suppress_errors then Return tt
     else Raise (FileRenameError (candidate_at file_path c w)),
     after_reads file_path w).
Proof.
  rewrite sanitize_file_name_run. cbv zeta. unfold collides, siblings_at.
  destruct (lookup (fst (os_path_split file_path)) (fs w)) as [[| |es]|];
    try discriminate.
  destruct (list_remove _ (map fst es)) as [siblings|]; [|discriminate].
  now intros ->.
Qed.

(** C2 (collision safety): when the candidate name is the name of a
    sibling (the listing of the parent without the entry's own
    basename), nothing is renamed: the call raises the rename-collision
    error naming the candidate when [suppress_errors] is false and
    returns without a rename when it is true, after reading only; and
    in every case each other entry of the parent that existed before
    the call is found unchanged under its name after it. *)
Theorem collision_safety
  (file_path : path) (c : ascii) (verbose suppress_errors : bool) (w : world) :
  let dirname := fst (os_path_split file_path) in
  let old_name := snd (os_path_split file_path) in
  let result := sanitize_file_name file_path c verbose suppress_errors w in
  (collides file_path c w = true ->
   result = (if suppress_errors then Return tt
             else Raise (FileRenameError (candidate_at file_path c w)),
             after_reads file_path w)
   /\ fs (snd result) = fs w /\ stdout (snd result) = stdout w
   /\ calls (snd result)
      = calls w ++ [OpIsfile file_path] ++ [OpListdir dirname])
  /\ (forall k,
         k <> old_name -> lookup (path_join dirname k) (fs w) <> None ->
         lookup (path_join dirname k) (fs (snd result))
         = lookup (path_join dirname k) (fs w)).
Proof.
  intros dirname old_name result. subst result.
  rewrite sanitize_file_name_run. fold dirname old_name. cbv zeta.
  unfold collides, siblings_at. fold dirname old_name.
  destruct (lookup dirname (fs w)) as [[| |es]|] eqn:Hd;
    try (split; [discriminate | reflexivity]).
  destruct (list_remove old_name (map fst es)) as [siblings|] eqn:Hrm;
    [|split; [discriminate | reflexivity]].
  destruct (mem (candidate_at file_path c w) siblings) eqn:Hmem.
  - split; [|reflexivity]. intros _. repeat split.
    simpl. now rewrite <- app_assoc.
  - split; [discriminate|]. intros k Hk Hex.
    destruct (str_eqb (candidate_at file_path c w) old_name);
      [reflexivity|].
    unfold bind, os_replace. cbn [fs after_reads record].
    destruct (lookup (path_join dirname old_name) (fs w));
      [|reflexivity].
    destruct verbose; cbn [print ret snd fs];
      now apply sibling_kept with (es := es) (siblings := siblings).
Qed.

Lemma collision_safety_witness :
  sanitize_file_name [s2l "d"; s2l "a 1.txt"] "_" true false sample_world
  = (Raise (FileRenameError (s2l "a_1.txt")),
     after_reads [s2l "d"; s2l "a 1.txt"] sample_world)
  /\ lookup [s2l "d"; s2l "a_1.txt"]
       (fs (snd (sanitize_file_name [s2l "d"; s2l "New Folder"] "_"
                   true false sample_world)))
     = lookup [s2l "d"; s2l "a_1.txt"] (fs sample_world).
Proof.
  split.
  - apply (collision_safety [s2l "d"; s2l "a 1.txt"] "_" true false
             sample_world).
    reflexivity.
  - apply (proj2 (collision_safety [s2l "d"; s2l "New Folder"] "_" true false
                    sample_world) (s2l "a_1.txt"));
      vm_compute; discriminate.
Defined.

(** ** The validation phase of rename_file *)

Lemma resolve_all_run (files : list path) :
  forall w : world,
    resolve_all files w
    = (Return files,
       World (fs w) (stdout w) (calls w ++ map OpRealpath files)).
Proof.
  induction files as [|f files IH]; intros w.
  - simpl. unfold ret. rewrite app_nil_r. now destruct w.
  - simpl. unfold bind, os_path_realpath. rewrite IH. unfold ret. simpl.
    now rewrite <- app_assoc.
Qed.

Lemma check_exists_cons (suppress_errors : bool) (q : path) (l : list path)
  (w : world) :
  check_exists (q :: l) suppress_errors w
  = match lookup q (fs w) with
    | Some _ => check_exists l suppress_errors (record (OpExists q) w)
    | None =>
        (if suppress_errors then Exit 1%Z else Raise (FileNotFoundError q),
         record (OpExists q) w)
    end.
Proof.
  unfold check_exists. cbn [for_each]. unfold bind at 1 2.
  unfold os_path_exists.
  destruct (lookup q (fs w)); [reflexivity|].
  now destruct suppress_errors.
Qed.

Lemma check_exists_missing (suppress_errors : bool) (l : list path) :
  forall (w : world) (p : path),
    first_missing (fs w) l = Some p ->
    exists ops,
      check_exists l suppress_errors w
      = (if suppress_errors then Exit 1%Z else Raise (FileNotFoundError p),
         World (fs w) (stdout w) (calls w ++ ops))
      /\ forallb is_validation_call ops = true.
Proof.
  induction l as [|q l IH]; intros w p H; [discriminate|].
  simpl in H. rewrite check_exists_cons.
  destruct (lookup q (fs w)) eqn:Hq.
  - destruct (IH (record (OpExists q) w) p H) as (ops & -> & Hops).
    exists (OpExists q :: ops). simpl. rewrite <- app_assoc. auto.
  - injection H as <-. exists [OpExists q]. auto.
Qed.

Lemma validation_calls_read_only (ops : list fs_op) :
  forallb is_validation_call ops = true ->
  forallb (fun op => negb (is_mutation op)) ops = true.
Proof.
  rewrite !forallb_forall. intros H op Hop. apply H in Hop.
  now destruct op.
Qed.

Lemma rename_file_valid
  (c : ascii) (files : list path) (recursive verbose suppress_errors : bool)
  (w : world) :
  is_allowed c = true ->
  rename_file [c] files recursive verbose suppress_errors w
  = (check_exists files suppress_errors ;;;
     for_each files (rename_path c recursive verbose suppress_errors))
      (World (fs w) (stdout w) (calls w ++ map OpRealpath files)).
Proof.
  intros Hc. unfold rename_file, is_excluded. rewrite Hc.
  unfold bind at 1. cbn [negb]. cbv beta. now rewrite resolve_all_run.
Qed.

(** What [rename_file] does when the substitution character or one of
    the paths is rejected, for both values of [suppress_errors]. *)
Lemma rename_file_rejects
  (char : str) (files : list path) (recursive verbose suppress_errors : bool)
  (w : world) :
  valid_char char = false \/ first_missing (fs w) files <> None ->
  exists e w' ops,
    rename_file char files recursive verbose suppress_errors w
    = (if suppress_errors then Exit 1%Z else Raise e, w')
    /\ fs w' = fs w /\ stdout w' = stdout w /\ calls w' = calls w ++ ops
    /\ forallb is_validation_call ops = true
    /\ (valid_char char = false ->
        ops = []
        /\ e = match char with
               | [_] => ValueError_special_character char
               | _ => ValueError_single_character char
               end)
    /\ (valid_char char = true ->
        exists p, first_missing (fs w) files = Some p
                  /\ e = FileNotFoundError p).
Proof.
  intros H.
  assert (Hbad : forall e,
             rename_file char files recursive verbose suppress_errors w
             = (if suppress_errors then Exit 1%Z else Raise e, w) ->
             valid_char char = false ->
             e = match char with
                 | [_] => ValueError_special_character char
                 | _ => ValueError_single_character char
                 end ->
             exists e w' ops,
               rename_file char files recursive verbose suppress_errors w
               = (if suppress_errors then Exit 1%Z else Raise e, w')
               /\ fs w' = fs w /\ stdout w' = stdout w
               /\ calls w' = calls w ++ ops
               /\ forallb is_validation_call ops = true
               /\ (valid_char char = false ->
                   ops = []
                   /\ e = match char with
                          | [_] => ValueError_special_character char
                          | _ => ValueError_single_character char
                          end)
               /\ (valid_char char = true ->
                   exists p, first_missing (fs w) files = Some p
                             /\ e = FileNotFoundError p)).
  { intros e Hrun Hv He. exists e, w, []. rewrite app_nil_r.
    repeat split; auto. congruence. }
  destruct char as [|c [|c2 rest]].
  - apply (Hbad (ValueError_single_character [])); auto.
    unfold rename_file. now destruct suppress_errors.
  - destruct (is_allowed c) eqn:Hc.
    + destruct H as [H|H]; [simpl in H; congruence|].
      destruct (first_missing (fs w) files) as [p|] eqn:Hp; [|congruence].
      rewrite rename_file_valid by exact Hc. unfold bind at 1.
      destruct (@check_exists_missing suppress_errors files
                  (World (fs w) (stdout w)
                     (calls w ++ map OpRealpath files)) p Hp)
        as (ops & Hrun & Hops).
      rewrite Hrun. simpl fs. simpl stdout. simpl calls.
      exists (FileNotFoundError p),
        (World (fs w) (stdout w)
           ((calls w ++ map OpRealpath files) ++ ops)),
        (map OpRealpath files ++ ops).
      split; [|split; [|split; [|split; [|split; [|split]]]]];
        try reflexivity.
      * now destruct suppress_errors.
      * simpl. now rewrite app_assoc.
      * rewrite forallb_app, Hops, andb_true_r.
        apply forallb_forall. intros op Hop. apply in_map_iff in Hop.
        now destruct Hop as (q & <- & _).
      * intros Hv. simpl in Hv. congruence.
      * intros _. exists p. auto.
    + apply (Hbad (ValueError_special_character [c])); auto.
      unfold rename_file, is_excluded. rewrite Hc.
      now destruct suppress_errors.
  - apply (Hbad (ValueError_single_character (c :: c2 :: rest))); auto.
    unfold rename_file. now destruct suppress_errors.
Qed.

(** ** Errors raised and errors suppressed *)

(** C5 (validation before any rename): with [suppress_errors] false, a
    substitution character that is not exactly one character, or is an
    excluded character, or an input path that does not exist makes
    [rename_file] raise the corresponding error; the two character
    checks raise before any call into the file system, the missing path
    is reported after calls that resolve paths and test existence only;
    the tree and the output are what they were. *)
Theorem validation_before_renames
  (char : str) (files : list path) (recursive verbose : bool) (w : world) :
  valid_char char = false \/ first_missing (fs w) files <> None ->
  exists e w' ops,
    rename_file char files recursive verbose false w = (Raise e, w')
    /\ fs w' = fs w /\ stdout w' = stdout w /\ calls w' = calls w ++ ops
    /\ forallb is_validation_call ops = true
    /\ forallb (fun op => negb (is_mutation op)) ops = true
    /\ (valid_char char = false ->
        ops = []
        /\ e = match char with
               | [_] => ValueError_special_character char
               | _ => ValueError_single_character char
               end)
    /\ (valid_char char = true ->
        exists p, first_missing (fs w) files = Some p
                  /\ e = FileNotFoundError p).
Proof.
  intros H.
  destruct (@rename_file_rejects char files recursive verbose false w H)
    as (e & w' & ops & Hrun & Hfs & Hout & Hcalls & Hops & Hbad & Hmiss).
  exists e, w', ops. repeat split; try assumption.
  - now apply validation_calls_read_only.
  - now apply Hbad.
  - now apply Hbad.
Qed.

Lemma validation_before_renames_witness :
  (exists w',
      rename_file (s2l "*") [[s2l "d"]] true true false sample_world
      = (Raise (ValueError_special_character (s2l "*")), w')
      /\ fs w' = fs sample_world /\ calls w' = calls sample_world)
  /\ (exists w',
         rename_file (s2l "_") [[s2l "d"]; [s2l "zz"]] true true false
           sample_world
         = (Raise (FileNotFoundError [s2l "zz"]), w')
         /\ fs w' = fs sample_world).
Proof.
  split.
  - destruct (@validation_before_renames (s2l "*") [[s2l "d"]] true true
                sample_world (or_introl eq_refl))
      as (e & w' & ops & Hrun & Hfs & _ & Hcalls & _ & _ & Hbad & _).
    destruct (Hbad eq_refl) as [-> ->]. exists w'.
    rewrite app_nil_r in Hcalls. auto.
  - assert (Hm : first_missing (fs sample_world) [[s2l "d"]; [s2l "zz"]]
                 <> None) by (vm_compute; discriminate).
    destruct (@validation_before_renames (s2l "_") [[s2l "d"]; [s2l "zz"]]
                true true sample_world (or_intror Hm))
      as (e & w' & ops & Hrun & Hfs & _ & _ & _ & _ & _ & Hmiss).
    destruct (Hmiss eq_refl) as (p & Hp & ->). exists w'.
    vm_compute in Hp. injection Hp as <-. auto.
Defined.

(** C4 as stated fails: with [suppress_errors] set, a rename collision
    does not make the process exit with status 1; the entry is skipped
    and the run goes on to its normal end. *)
Lemma suppressed_collision_does_not_exit :
  ~ (forall (c : ascii) (file_path : path) (recursive verbose : bool)
            (w : world),
        is_allowed c = true ->
        collides file_path c w = true ->
        fst (rename_file [c] [file_path] recursive verbose true w)
        = Exit 1%Z).
Proof.
  intros H.
  specialize (H "_" [s2l "d"; s2l "a 1.txt"] false true sample_world
                eq_refl eq_refl).
  vm_compute in H. discriminate.
Qed.

Lemma rename_path_collision
  (c : ascii) (recursive verbose : bool) (path : path) (w : world) :
  lookup path (fs w) = Some File ->
  collides path c w = true ->
  rename_path c recursive verbose true path w
  = (Return tt, after_reads path (record (OpIsfile path) w)).
Proof.
  intros Hl Hcol. unfold rename_path. unfold bind at 1.
  unfold os_path_isfile. rewrite Hl. cbn [is_file]. cbv beta.
  now rewrite sanitize_file_name_collision.
Qed.

(** C4, amended (suppressed errors): with [suppress_errors] set, an
    invalid substitution character or a missing input path makes the
    process exit with status 1 instead of raising, with the tree and
    the output untouched; a rename collision raises nothing either, the
    entry is skipped without a rename and the call returns normally, so
    that the loop of [rename_file] goes on with the next path. *)
Theorem suppressed_errors
  (char : str) (files : list path) (recursive verbose : bool) (w : world) :
  (valid_char char = false \/ first_missing (fs w) files <> None ->
   exists w' ops,
     rename_file char files recursive verbose true w = (Exit 1%Z, w')
     /\ fs w' = fs w /\ stdout w' = stdout w /\ calls w' = calls w ++ ops
     /\ forallb is_validation_call ops = true)
  /\ (forall file_path c,
         collides file_path c w = true ->
         sanitize_file_name file_path c verbose true w
         = (Return tt, after_reads file_path w))
  /\ (forall path rest c,
         lookup path (fs w) = Some File ->
         collides path c w = true ->
         for_each (path :: rest) (rename_path c recursive verbose true) w
         = for_each rest (rename_path c recursive verbose true)
             (after_reads path (record (OpIsfile path) w))).
Proof.
  split; [|split].
  - intros H.
    destruct (@rename_file_rejects char files recursive verbose true w H)
      as (e & w' & ops & Hrun & Hfs & Hout & Hcalls & Hops & _).
    exists w', ops. auto.
  - intros file_path c Hcol.
    now rewrite sanitize_file_name_collision.
  - intros path rest c Hl Hcol. cbn [for_each]. unfold bind at 1.
    now rewrite rename_path_collision.
Qed.

Lemma suppressed_errors_witness :
  (exists w' ops,
      rename_file (s2l "ab") [[s2l "d"]] true true true sample_world
      = (Exit 1%Z, w')
      /\ fs w' = fs sample_world /\ stdout w' = stdout sample_world
      /\ calls w' = calls sample_world ++ ops
      /\ forallb is_validation_call ops = true)
  /\ sanitize_file_name [s2l "d"; s2l "a 1.txt"] "_" true true sample_world
     = (Return tt, after_reads [s2l "d"; s2l "a 1.txt"] sample_world).
Proof.
  split.
  - apply (@suppressed_errors (s2l "ab") [[s2l "d"]] true true sample_world).
    left. reflexivity.
  - apply (@suppressed_errors [] [] true true sample_world).
    reflexivity.
Defined.

(* ================================================================== *)
(** * Further properties of the name generator *)

Section Lengths.

Variable c : ascii.

Lemma lstrip_length (s : str) :
  (List.length (lstrip c s) <= List.length s)%nat.
Proof.
  induction s as [|a t IH]; simpl; [lia|].
  destruct (a =? c); simpl; lia.
Qed.

Lemma rstrip_length (s : str) :
  (List.length (rstrip c s) <= List.length s)%nat.
Proof.
  induction s as [|a t IH]; simpl; [lia|].
  destruct (is_nil (rstrip c t) && (a =? c)); simpl; lia.
Qed.

Lemma strip_length (s : str) :
  (List.length (strip c s) <= List.length s)%nat.
Proof.
  unfold strip. pose proof (rstrip_length (lstrip c s)).
  pose proof (lstrip_length s). lia.
Qed.

Lemma sub_length (s : str) :
  List.length (EXCLUDED_CHARS_sub c s) = List.length s.
Proof. apply length_map. Qed.

Lemma join_cons_length (x : str) (l : list str) :
  (List.length x <= List.length (join c (x :: l)))%nat.
Proof.
  destruct l; [simpl; lia|]. rewrite join_cons2, length_app. lia.
Qed.

Lemma join_filter_length (l : list str) :
  (List.length (join c (filter non_empty l)) <= List.length (join c l))%nat.
Proof.
  induction l as [|x l IH]; [simpl; lia|].
  destruct l as [|y l].
  - destruct x; simpl; lia.
  - rewrite join_cons2, length_app. cbn [List.length].
    change (filter non_empty (x :: y :: l))
      with (if non_empty x then x :: filter non_empty (y :: l)
            else filter non_empty (y :: l)).
    destruct (non_empty x); [|lia].
    destruct (filter non_empty (y :: l)) as [|z r].
    + simpl. lia.
    + rewrite join_cons2, length_app. cbn [List.length]. lia.
Qed.

Lemma name_components_length (s : str) :
  (List.length (join c (name_components c s)) <= List.length s)%nat.
Proof.
  unfold name_components. pose proof (join_filter_length (split c s)) as H.
  now rewrite join_split in H.
Qed.

(** Removing the separator from a string. *)

Lemma filter_other_sep (t : str) :
  filter (is_other c) (c :: t) = filter (is_other c) t.
Proof. simpl. unfold is_other at 1. now rewrite Ascii.eqb_refl. Qed.

Lemma filter_other_lstrip (s : str) :
  filter (is_other c) (lstrip c s) = filter (is_other c) s.
Proof.
  induction s as [|a t IH]; [reflexivity|]. cbn [lstrip].
  destruct (Ascii.eqb_spec a c) as [->|Hac]; [|reflexivity].
  now rewrite filter_other_sep.
Qed.

Lemma filter_other_rstrip (s : str) :
  filter (is_other c) (rstrip c s) = filter (is_other c) s.
Proof.
  induction s as [|a t IH]; [reflexivity|]. cbn [rstrip].
  destruct (is_nil (rstrip c t) && (a =? c)) eqn:E.
  - apply andb_prop in E. destruct E as [En Ea].
    apply Ascii.eqb_eq in Ea. subst a. rewrite filter_other_sep, <- IH.
    now destruct (rstrip c t).
  - cbn [filter]. now rewrite IH.
Qed.

Lemma filter_other_strip (s : str) :
  filter (is_other c) (strip c s) = filter (is_other c) s.
Proof.
  unfold strip. now rewrite filter_other_rstrip, filter_other_lstrip.
Qed.

Lemma filter_other_join_filter (l : list str) :
  filter (is_other c) (join c (filter non_empty l))
  = filter (is_other c) (join c l).
Proof.
  assert (Hc : forall t, filter (is_other c) (c :: t) = filter (is_other c) t).
  { intros t. simpl. unfold is_other at 1. now rewrite Ascii.eqb_refl. }
  induction l as [|x l IH]; [reflexivity|].
  destruct l as [|y l].
  - destruct x; reflexivity.
  - rewrite join_cons2, filter_app, Hc, <- IH.
    change (filter non_empty (x :: y :: l))
      with (if non_empty x then x :: filter non_empty (y :: l)
            else filter non_empty (y :: l)).
    destruct x as [|a x]; [reflexivity|]. cbn [non_empty is_nil negb].
    destruct (filter non_empty (y :: l)) as [|z r].
    + simpl join. now rewrite app_nil_r.
    + now rewrite join_cons2, filter_app, Hc.
Qed.

Lemma filter_other_components (s : str) :
  filter (is_other c) (join c (name_components c s))
  = filter (is_other c) s.
Proof.
  unfold name_components.
  now rewrite filter_other_join_filter, join_split.
Qed.

Lemma filter_other_sub (s : str) :
  filter (is_other c) (EXCLUDED_CHARS_sub c s)
  = filter (fun a => is_allowed a && is_other c a) s.
Proof.
  induction s as [|a t IH]; [reflexivity|]. simpl.
  unfold is_excluded. destruct (is_allowed a); simpl.
  - destruct (is_other c a); now rewrite IH.
  - unfold is_other at 1. now rewrite Ascii.eqb_refl.
Qed.

End Lengths.

Lemma sanitized_portion_starts (isfile : bool) (name : str) :
  starts_with "." name = true ->
  starts_with "." (sanitized_portion isfile name) = true.
Proof.
  intros H. destruct isfile; [|exact H]. unfold sanitized_portion.
  destruct (list_eq_dec ascii_dec (snd (splitext name)) []) as [E|E].
  - apply splitext_dots_first in E. now rewrite (splitext_no_ext E).
  - destruct (splitext_ext _ E) as (e & _ & _ & Hroot).
    rewrite <- (splitext_app_eq name) in H.
    destruct (fst (splitext name)); [discriminate | exact H].
Qed.

(** X1 (names never grow): the name the generator returns is never
    longer than the basename it was given. *)
Theorem generated_name_not_longer
  (isfile : bool) (old_name : str) (c : ascii) :
  is_allowed c = true ->
  (List.length (generate_new_pathname isfile old_name c)
   <= List.length old_name)%nat.
Proof.
  intros _. rewrite generate_new_pathname_eq.
  destruct (_ <? 2)%nat; [apply Nat.le_refl|].
  assert (E : List.length old_name
              = (List.length (sanitized_portion isfile old_name)
                 + List.length (kept_extension isfile old_name))%nat)
    by (rewrite <- length_app; now rewrite sanitized_portion_app).
  rewrite length_app. unfold new_components.
  pose proof (name_components_length c
                (strip c (EXCLUDED_CHARS_sub c
                            (sanitized_portion isfile old_name)))).
  pose proof (strip_length c
                (EXCLUDED_CHARS_sub c (sanitized_portion isfile old_name))).
  rewrite sub_length in *. lia.
Qed.

Lemma generated_name_not_longer_witness :
  (List.length (generate_new_pathname true (s2l "a  (b).txt") "_")
   <= List.length (s2l "a  (b).txt"))%nat.
Proof.
  apply (@generated_name_not_longer true (s2l "a  (b).txt") "_").
  reflexivity.
Defined.

(** X2 (allowed characters are kept): when the generator rebuilds a
    name, the rebuilt root, the separator left aside, is the sanitized
    portion of the original with its excluded characters and the
    separator left aside: no other character is lost, added or moved. *)
Theorem rebuilt_root_keeps_characters
  (isfile : bool) (old_name : str) (c : ascii) :
  is_allowed c = true ->
  generate_new_pathname isfile old_name c <> old_name ->
  let new_root := join c (new_components isfile old_name c) in
  generate_new_pathname isfile old_name c
  = new_root ++ kept_extension isfile old_name
  /\ filter (is_other c) new_root
     = filter (fun a => is_allowed a && is_other c a)
         (sanitized_portion isfile old_name).
Proof.
  intros _ Hneq new_root. subst new_root. split.
  - destruct (generate_new_pathname_cases isfile old_name c)
      as [E|[_ E]]; [contradiction | exact E].
  - unfold new_components.
    now rewrite filter_other_components, filter_other_strip, filter_other_sub.
Qed.

Lemma rebuilt_root_keeps_characters_witness :
  filter (is_other "_") (join "_" (new_components true (s2l "a_ (b).txt") "_"))
  = s2l "ab".
Proof.
  apply (@rebuilt_root_keeps_characters true (s2l "a_ (b).txt") "_");
    [reflexivity | vm_compute; discriminate].
Defined.

(** X3 (hidden names stay hidden): with a substitution character other
    than the dot, a basename that begins with a dot is given a name that
    begins with a dot. *)
Theorem hidden_name_stays_hidden
  (isfile : bool) (old_name : str) (c : ascii) :
  is_allowed c = true -> c <> "." ->
  starts_with "." old_name = true ->
  starts_with "." (generate_new_pathname isfile old_name c) = true.
Proof.
  intros _ Hc Hdot.
  destruct (generate_new_pathname_cases isfile old_name c)
    as [->|[Hlen ->]]; [exact Hdot|].
  rewrite new_components_eq.
  pose proof (sanitized_portion_starts isfile old_name Hdot) as Hp.
  destruct (sanitized_portion isfile old_name) as [|a t]; [discriminate|].
  simpl in Hp. apply Ascii.eqb_eq in Hp. subst a.
  change (EXCLUDED_CHARS_sub c ("." :: t))
    with ("." :: EXCLUDED_CHARS_sub c t).
  rewrite name_components_other by congruence.
  destruct (filter non_empty (snd (split_aux c (EXCLUDED_CHARS_sub c t))));
    reflexivity.
Qed.

Lemma hidden_name_stays_hidden_witness :
  starts_with "." (generate_new_pathname true (s2l ".my notes.txt") "_")
  = true.
Proof.
  apply (@hidden_name_stays_hidden true (s2l ".my notes.txt") "_");
    [reflexivity | discriminate | reflexivity].
Defined.

Example hidden_name_lost_with_dot :
  generate_new_pathname true (s2l ".my notes") "." = s2l "my.notes".
Proof. reflexivity. Qed.

(* ================================================================== *)
(** * Further properties of the traversal *)

Lemma distinct_NoDup (l : list str) : distinct l = true <-> NoDup l.
Proof.
  induction l as [|x l IH].
  - split; [constructor | reflexivity].
  - rewrite distinct_cons, NoDup_cons_iff, IH. reflexivity.
Qed.

Lemma assoc_distinct (k : str) (v : node) (es : entries) :
  distinct (map fst es) = true -> In (k, v) es -> assoc k es = Some v.
Proof.
  induction es as [|[k' v'] es IH]; intros Hd Hin; [contradiction|].
  simpl in Hd. apply distinct_cons in Hd. destruct Hd as [Hnotin Hd].
  simpl. destruct Hin as [E|Hin].
  - injection E as -> ->. now rewrite str_eqb_refl.
  - destruct (str_eqb k' k) eqn:E; [|now apply IH].
    apply str_eqb_eq in E. subst k'. exfalso. apply Hnotin.
    change k with (fst (k, v)). now apply in_map.
Qed.

Lemma assoc_of_name (k : str) (es : entries) :
  In k (map fst es) -> assoc k es <> None.
Proof.
  induction es as [|[k' v'] es IH]; simpl; [tauto|].
  destruct (str_eqb k' k) eqn:E; [discriminate|].
  intros [H|H]; [|now apply IH].
  apply str_eqb_neq in E. contradiction.
Qed.

Lemma well_formed_entry (es : entries) (e : list ascii * node) :
  well_formed (Dir es) = true -> In e es -> well_formed (snd e) = true.
Proof.
  rewrite well_formed_Dir. intros H Hin. apply andb_prop in H.
  destruct H as [_ H]. rewrite forallb_forall in H. now apply H.
Qed.

Lemma well_formed_names (es : entries) :
  well_formed (Dir es) = true -> distinct (map fst es) = true.
Proof.
  rewrite well_formed_Dir. intros H. now apply andb_prop in H.
Qed.

(** Every listed path resolves, relative to [top], to an entry of the
    tree. *)
Lemma get_children_sound (n : node) :
  forall (top x : path),
    well_formed n = true -> In x (get_children top n) ->
    exists p, p <> [] /\ x = top ++ p /\ lookup p n <> None.
Proof.
  induction n as [| |es IH] using node_ind_nested; intros top x Hwf Hx;
    try contradiction.
  rewrite get_children_Dir in Hx.
  apply in_app_or in Hx. destruct Hx as [Hx|Hx].
  - apply in_flat_map in Hx. destruct Hx as ([k v] & He & Hx).
    rewrite Forall_forall in IH.
    destruct (IH (k, v) He _ _ (@well_formed_entry es (k, v) Hwf He) Hx)
      as (p & Hp & -> & Hl).
    exists (k :: p). repeat split; [discriminate | |].
    + unfold path_join. now rewrite <- app_assoc.
    + simpl. rewrite (@assoc_distinct k v es (@well_formed_names es Hwf) He).
      exact Hl.
  - rewrite <- map_app in Hx. apply in_map_iff in Hx.
    destruct Hx as (k & <- & Hk). exists [k].
    repeat split; [discriminate|]. simpl.
    assert (Hn : In k (map fst es)).
    { unfold nondirs, dirs in Hk. rewrite <- map_app in Hk.
      apply in_map_iff in Hk. destruct Hk as (e & <- & He).
      apply in_map. apply in_app_or in He.
      destruct He as [He|He]; apply filter_In in He; tauto. }
    apply assoc_of_name in Hn. now destruct (assoc k es).
Qed.

Lemma NoDup_names_filter (f : list ascii * node -> bool) (es : entries) :
  NoDup (map fst es) -> NoDup (map fst (filter f es)).
Proof.
  induction es as [|e es IH]; intros H; [constructor|].
  simpl in H. apply NoDup_cons_iff in H. destruct H as [Hn H].
  simpl. destruct (f e); [|now apply IH].
  simpl. constructor; [|now apply IH].
  intros Hin. apply Hn. apply in_map_iff in Hin.
  destruct Hin as (e' & <- & He'). apply in_map.
  apply filter_In in He'. tauto.
Qed.

Lemma NoDup_direct_children (top : path) (es : entries) :
  distinct (map fst es) = true ->
  NoDup (map (path_join top) (nondirs es ++ dirs es)).
Proof.
  intros Hd.
  assert (Hnd : NoDup (nondirs es ++ dirs es)).
  { apply NoDup_app.
    - apply NoDup_names_filter. now apply distinct_NoDup.
    - apply NoDup_names_filter. now apply distinct_NoDup.
    - intros k H1 H2. unfold nondirs, dirs in *.
      apply in_map_iff in H1. destruct H1 as ([k1 v1] & E1 & H1).
      apply in_map_iff in H2. destruct H2 as ([k2 v2] & E2 & H2).
      simpl in *. subst k1 k2.
      apply filter_In in H1. destruct H1 as [H1 F1].
      apply filter_In in H2. destruct H2 as [H2 F2].
      apply (@assoc_distinct _ _ es Hd) in H1.
      apply (@assoc_distinct _ _ es Hd) in H2.
      simpl in *. rewrite H1 in H2. injection H2 as ->.
      now rewrite F2 in F1. }
  induction Hnd as [|k l Hk Hl IHl]; [constructor|].
  simpl. constructor; [|exact IHl].
  intros Hin. apply in_map_iff in Hin. destruct Hin as (k' & E & Hk').
  unfold path_join in E. apply app_inv_head in E. injection E as ->.
  contradiction.
Qed.

Lemma get_children_NoDup (n : node) :
  forall top : path, well_formed n = true -> NoDup (get_children top n).
Proof.
  induction n as [| |es IH] using node_ind_nested; intros top Hwf;
    try constructor.
  rewrite get_children_Dir.
  pose proof (@well_formed_names es Hwf) as Hd.
  assert (Hes : forall e, In e es -> well_formed (snd e) = true)
    by (intros e; now apply well_formed_entry).
  clear Hwf. apply NoDup_app.
  - induction es as [|e es IHes]; [constructor|].
    inversion IH as [|? ? IHe IHrest]; subst.
    simpl in Hd. apply distinct_cons in Hd. destruct Hd as [Hnotin Hd].
    simpl. apply NoDup_app.
    + apply IHe. apply Hes. now left.
    + apply IHes; [exact IHrest | exact Hd|].
      intros e' He'. apply Hes. now right.
    + intros x Ha Hx.
      apply get_children_below in Ha. destruct Ha as (k & ra & ->).
      apply in_flat_map in Hx. destruct Hx as (e' & He' & Hx).
      apply get_children_below in Hx. destruct Hx as (k' & rx & E).
      unfold path_join in E. rewrite <- !app_assoc in E.
      apply app_inv_head in E. simpl in E. injection E as E _.
      apply Hnotin. rewrite E. now apply in_map.
  - rewrite <- map_app. now apply NoDup_direct_children.
  - intros x Ha Hx.
    apply in_flat_map in Ha. destruct Ha as (e & _ & Ha).
    apply get_children_below in Ha. destruct Ha as (k & ra & ->).
    rewrite <- map_app in Hx. apply in_map_iff in Hx.
    destruct Hx as (k' & E & _). unfold path_join in E.
    apply (f_equal (@List.length _)) in E.
    rewrite !length_app in E. simpl in E. lia.
Qed.

(** X4 (exact enumeration): for a directory whose names are pairwise
    distinct at every depth, [get_children] lists every entry below
    the directory, lists nothing else, and lists no path twice. *)
Theorem get_children_exact (top : path) (n : node) :
  well_formed n = true ->
  NoDup (get_children top n)
  /\ (forall x,
         In x (get_children top n)
         <-> exists p, p <> [] /\ x = top ++ p /\ lookup p n <> None).
Proof.
  intros Hwf. split; [now apply get_children_NoDup|].
  intros x. split.
  - now apply get_children_sound.
  - intros (p & Hp & -> & Hl). now apply get_children_complete.
Qed.

Lemma get_children_exact_witness :
  NoDup (get_children [s2l "d"]
           (Dir [(s2l "x", Dir [(s2l "y", File)]); (s2l "f", File)])).
Proof.
  apply (@get_children_exact [s2l "d"]
           (Dir [(s2l "x", Dir [(s2l "y", File)]); (s2l "f", File)])).
  reflexivity.
Defined.

(* ================================================================== *)
(** * Further properties of the rename engine *)

Lemma list_remove_some (x : str) (l : list str) :
  list_remove x l <> None <-> In x l.
Proof.
  induction l as [|y l IH]; simpl; [tauto|].
  destruct (str_eqb y x) eqn:E.
  - apply str_eqb_eq in E. split; [now left | discriminate].
  - apply str_eqb_neq in E. destruct (list_remove x l).
    + split; [intros _; right; now apply IH | discriminate].
    + split; [congruence|]. intros [H|H]; [contradiction|].
      now apply IH in H.
Qed.

Lemma lookup_child (d : path) (k : str) (es : entries) (n : node) :
  lookup d n = Some (Dir es) ->
  lookup (path_join d k) n = assoc k es.
Proof.
  intros H. unfold path_join. rewrite (lookup_app _ [k] _ H). simpl.
  now destruct (assoc k es).
Qed.

(** The five ways a call of [sanitize_file_name] ends. *)
Lemma sanitize_file_name_cases
  (file_path : path) (c : ascii) (verbose suppress_errors : bool) (w : world) :
  let dirname := fst (os_path_split file_path) in
  let old_name := snd (os_path_split file_path) in
  let new_name := candidate_at file_path c w in
  let result := sanitize_file_name file_path c verbose suppress_errors w in
  ((forall es, lookup dirname (fs w) <> Some (Dir es))
   /\ result = (Raise (OSError dirname), after_reads file_path w))
  \/ (exists es, lookup dirname (fs w) = Some (Dir es)
                 /\ ~ In old_name (map fst es)
                 /\ result = (Raise (ValueError_remove old_name),
                              after_reads file_path w))
  \/ (collides file_path c w = true
      /\ result = (if suppress_errors then Return tt
                   else Raise (FileRenameError new_name),
                   after_reads file_path w))
  \/ (exists es, lookup dirname (fs w) = Some (Dir es)
                 /\ In old_name (map fst es)
                 /\ collides file_path c w = false
                 /\ new_name = old_name
                 /\ result = (Return tt, after_reads file_path w))
  \/ (exists es, lookup dirname (fs w) = Some (Dir es)
                 /\ In old_name (map fst es)
                 /\ ~ In new_name (map fst es)
                 /\ new_name <> old_name
                 /\ result = (Return tt,
                              renamed_world file_path new_name verbose w)).
Proof.
  intros dirname old_name new_name result. subst result.
  destruct (collides file_path c w) eqn:Hcol.
  { right. right. left. split; [reflexivity|].
    now apply sanitize_file_name_collision. }
  rewrite sanitize_file_name_run. cbv zeta. fold dirname old_name new_name.
  unfold collides, siblings_at in Hcol. fold dirname old_name new_name in Hcol.
  destruct (lookup dirname (fs w)) as [[| |es]|] eqn:Hd;
    try (left; split; [intros es; discriminate | reflexivity]).
  destruct (list_remove old_name (map fst es)) as [siblings|] eqn:Hrm.
  - assert (Hold : In old_name (map fst es))
      by (apply list_remove_some; congruence).
    rewrite Hcol.
    destruct (str_eqb new_name old_name) eqn:E.
    + apply str_eqb_eq in E. right. right. right. left.
      exists es. auto.
    + apply str_eqb_neq in E. right. right. right. right.
      exists es. repeat split; try assumption.
      * intros Hin. apply (mem_false _ _ Hcol).
        now apply (@list_remove_keeps old_name new_name (map fst es) siblings Hrm).
      * unfold bind, os_replace. cbn [fs after_reads record].
        rewrite (@lookup_child dirname old_name es (fs w) Hd).
        destruct (assoc old_name es) eqn:Ha;
          [|now apply assoc_of_name in Hold].
        unfold renamed_world. fold dirname old_name.
        destruct verbose; unfold print, ret, after_reads, record;
          cbn [fs stdout calls]; rewrite <- ?app_assoc, ?app_nil_r;
          reflexivity.
  - right. left. exists es. repeat split.
    intros Hin. apply list_remove_some in Hin. congruence.
Qed.

(** ** The entries of a directory after a rename *)

Lemma rename_entry_fresh (old_name new_name : str) (es : entries) :
  ~ In new_name (map fst es) -> old_name <> new_name ->
  rename_entry old_name new_name es
  = map (fun e => if str_eqb (fst e) old_name then (new_name, snd e) else e)
      es.
Proof.
  intros Hnew Hne. unfold rename_entry.
  replace (str_eqb old_name new_name) with false
    by (symmetry; now apply str_eqb_neq).
  f_equal. apply filter_all_true. apply Forall_forall. intros e He.
  apply negb_true_iff, str_eqb_neq. intros E. apply Hnew.
  rewrite <- E. now apply in_map.
Qed.

Lemma assoc_renamed_new (old_name new_name : str) (es : entries) :
  ~ In new_name (map fst es) -> old_name <> new_name ->
  assoc new_name (rename_entry old_name new_name es) = assoc old_name es.
Proof.
  intros Hnew Hne. rewrite rename_entry_fresh by assumption.
  induction es as [|[k v] es IH]; [reflexivity|].
  simpl in Hnew. simpl.
  destruct (str_eqb k old_name) eqn:E; simpl.
  - now rewrite str_eqb_refl.
  - replace (str_eqb k new_name) with false
      by (symmetry; apply str_eqb_neq; tauto).
    apply IH. tauto.
Qed.

Lemma assoc_renamed_old (old_name new_name : str) (es : entries) :
  old_name <> new_name ->
  assoc old_name (rename_entry old_name new_name es) = None.
Proof.
  intros Hne. unfold rename_entry.
  replace (str_eqb old_name new_name) with false
    by (symmetry; now apply str_eqb_neq).
  induction es as [|[k v] es IH]; [reflexivity|].
  simpl. destruct (str_eqb k new_name); simpl; [exact IH|].
  destruct (str_eqb k old_name) eqn:E; simpl.
  - replace (str_eqb new_name old_name) with false
      by (symmetry; apply str_eqb_neq; congruence).
    exact IH.
  - now rewrite E.
Qed.

Lemma list_remove_distinct (x : str) (l r : list str) :
  distinct l = true -> list_remove x l = Some r -> ~ In x r.
Proof.
  revert r. induction l as [|y l IH]; intros r Hd; simpl; [discriminate|].
  apply distinct_cons in Hd. destruct Hd as [Hy Hd].
  destruct (str_eqb y x) eqn:E.
  - apply str_eqb_eq in E. subst y. now intros [= <-].
  - apply str_eqb_neq in E. destruct (list_remove x l) as [r'|];
      [|discriminate].
    intros [= <-] [H|H]; [contradiction|]. now apply (IH r').
Qed.

(** X5 (what a rename does): when the parent is a directory that lists
    the entry, the candidate differs from the current name and collides
    with no sibling, [sanitize_file_name] returns normally; the entry,
    with everything below it, is then found under the new name, nothing
    is found under the old name any more, and the notice is printed
    exactly when [verbose] is set. *)
Theorem rename_moves_entry
  (file_path : path) (c : ascii) (verbose suppress_errors : bool) (w : world)
  (es : entries) :
  let dirname := fst (os_path_split file_path) in
  let old_name := snd (os_path_split file_path) in
  let new_name := candidate_at file_path c w in
  let result := sanitize_file_name file_path c verbose suppress_errors w in
  lookup dirname (fs w) = Some (Dir es) ->
  In old_name (map fst es) ->
  collides file_path c w = false ->
  new_name <> old_name ->
  fst result = Return tt
  /\ (forall q, lookup (dirname ++ new_name :: q) (fs (snd result))
                = lookup (dirname ++ old_name :: q) (fs w))
  /\ (forall q, lookup (dirname ++ old_name :: q) (fs (snd result)) = None)
  /\ stdout (snd result)
     = stdout w
       ++ (if verbose
           then [(path_join dirname old_name, path_join dirname new_name)]
           else [])
  /\ calls (snd result)
     = calls w
       ++ [OpIsfile file_path; OpListdir dirname;
           OpReplace (path_join dirname old_name)
             (path_join dirname new_name)].
Proof.
  intros dirname old_name new_name result Hd Hold Hcol Hne.
  destruct (sanitize_file_name_cases file_path c verbose suppress_errors w)
    as [[H _]|[(es' & Hd' & Hn & _)|[[H _]|[(es' & _ & _ & _ & H & _)
       |(es' & Hd' & _ & Hnew & _ & Hrun)]]]].
  - exfalso. now apply (H es).
  - exfalso. fold dirname in Hd'. rewrite Hd in Hd'.
    injection Hd' as <-. contradiction.
  - congruence.
  - contradiction.
  - fold dirname in Hd'. rewrite Hd in Hd'. injection Hd' as <-.
    subst result. rewrite Hrun. unfold renamed_world.
    fold dirname old_name new_name. cbn [fst snd fs stdout calls].
    assert (Hne' : old_name <> new_name) by (intros E; now apply Hne).
    repeat split.
    + intros q. rewrite (lookup_modify _ _ (new_name :: q) _ Hd),
        (lookup_app _ (old_name :: q) _ Hd).
      simpl. rewrite assoc_renamed_new by assumption. reflexivity.
    + intros q. rewrite (lookup_modify _ _ (old_name :: q) _ Hd).
      simpl. rewrite assoc_renamed_old by assumption. reflexivity.
Qed.

Lemma rename_moves_entry_witness :
  lookup [s2l "d"; s2l "New_Folder"; s2l "Child File.txt"]
    (fs (snd (sanitize_file_name [s2l "d"; s2l "New Folder"] "_" true false
                sample_world)))
  = lookup [s2l "d"; s2l "New Folder"; s2l "Child File.txt"] (fs sample_world).
Proof.
  apply (@rename_moves_entry [s2l "d"; s2l "New Folder"] "_" true false
           sample_world
           [(s2l "a 1.txt", File); (s2l "a_1.txt", File);
            (s2l "New Folder", Dir [(s2l "Child File.txt", File)])]);
    try reflexivity.
  - simpl. auto.
  - vm_compute. discriminate.
Defined.

(** X6 (no-op on a clean name): when the parent is a directory with
    pairwise distinct names that lists the entry, and the candidate is
    the current name, [sanitize_file_name] returns normally after its
    two reads: nothing is renamed and nothing is printed. *)
Theorem clean_name_untouched
  (file_path : path) (c : ascii) (verbose suppress_errors : bool) (w : world)
  (es : entries) :
  lookup (fst (os_path_split file_path)) (fs w) = Some (Dir es) ->
  distinct (map fst es) = true ->
  In (snd (os_path_split file_path)) (map fst es) ->
  candidate_at file_path c w = snd (os_path_split file_path) ->
  sanitize_file_name file_path c verbose suppress_errors w
  = (Return tt, after_reads file_path w).
Proof.
  intros Hd Hdist Hold Hcand.
  destruct (sanitize_file_name_cases file_path c verbose suppress_errors w)
    as [[H _]|[(es' & Hd' & Hn & _)|[[H _]|[(es' & _ & _ & _ & _ & H)
       |(es' & _ & _ & _ & H & _)]]]].
  - exfalso. now apply (H es).
  - exfalso. rewrite Hd in Hd'. injection Hd' as <-. contradiction.
  - exfalso. unfold collides, siblings_at in H. rewrite Hd in H.
    destruct (list_remove _ (map fst es)) as [siblings|] eqn:Hrm;
      [|discriminate].
    rewrite Hcand in H. apply existsb_str_eqb in H.
    now apply (@list_remove_distinct _ _ _ Hdist Hrm).
  - exact H.
  - contradiction.
Qed.

Lemma clean_name_untouched_witness :
  sanitize_file_name [s2l "d"; s2l "a_1.txt"] "_" true false sample_world
  = (Return tt, after_reads [s2l "d"; s2l "a_1.txt"] sample_world).
Proof.
  apply (@clean_name_untouched [s2l "d"; s2l "a_1.txt"] "_" true false
           sample_world
           [(s2l "a 1.txt", File); (s2l "a_1.txt", File);
            (s2l "New Folder", Dir [(s2l "Child File.txt", File)])]);
    try reflexivity.
  simpl. auto.
Defined.

(** ** Relations every step of a run keeps *)

Section Invariant.

Variable R : world -> world -> Prop.
Variable verbose : bool.

Hypothesis R_refl : forall w, R w w.
Hypothesis R_trans : forall w1 w2 w3, R w1 w2 -> R w2 w3 -> R w1 w3.
Hypothesis R_read :
  forall w op, is_mutation op = false -> R w (record op w).
Hypothesis R_rename :
  forall file_path new_name w es,
    lookup (fst (os_path_split file_path)) (fs w) = Some (Dir es) ->
    In (snd (os_path_split file_path)) (map fst es) ->
    ~ In new_name (map fst es) ->
    new_name <> snd (os_path_split file_path) ->
    R w (renamed_world file_path new_name verbose w).

Lemma keeps_ret (A : Type) (a : A) : keeps R (ret a).
Proof. intros w. apply R_refl. Qed.

Lemma keeps_raise (A : Type) (e : exn) : keeps R (@raise A e).
Proof. intros w. apply R_refl. Qed.

Lemma keeps_exit (A : Type) (status : Z) : keeps R (@sys_exit A status).
Proof. intros w. apply R_refl. Qed.

Lemma keeps_bind (A B : Type) (m : M A) (k : A -> M B) :
  keeps R m -> (forall a, keeps R (k a)) -> keeps R (bind m k).
Proof.
  intros Hm Hk w. unfold bind. specialize (Hm w).
  destruct (m w) as [[a| |] w']; simpl in *; [|exact Hm|exact Hm].
  apply R_trans with (w2 := w'); [exact Hm | apply Hk].
Qed.

Lemma keeps_for_each (A : Type) (l : list A) (body : A -> M unit) :
  (forall x, keeps R (body x)) -> keeps R (for_each l body).
Proof.
  intros Hbody. induction l as [|x l IH]; [apply keeps_ret|].
  simpl. apply keeps_bind; [apply Hbody | intros _; exact IH].
Qed.

Lemma keeps_after_reads (file_path : path) (w : world) :
  R w (after_reads file_path w).
Proof.
  unfold after_reads.
  apply R_trans with (w2 := record (OpIsfile file_path) w);
    now apply R_read.
Qed.

Lemma keeps_sanitize_file_name
  (file_path : path) (c : ascii) (suppress_errors : bool) :
  keeps R (sanitize_file_name file_path c verbose suppress_errors).
Proof.
  intros w.
  destruct (sanitize_file_name_cases file_path c verbose suppress_errors w)
    as [[_ H]|[(es & _ & _ & H)|[[_ H]|[(es & _ & _ & _ & _ & H)
       |(es & Hd & Hold & Hnew & Hne & H)]]]];
    rewrite H; cbn [snd]; try apply keeps_after_reads.
  now apply R_rename with (es := es).
Qed.

Lemma keeps_rename_path
  (c : ascii) (recursive suppress_errors : bool) (p : path) :
  keeps R (rename_path c recursive verbose suppress_errors p).
Proof.
  unfold rename_path. apply keeps_bind.
  { intros w. now apply R_read. }
  intros isfile. destruct isfile; [apply keeps_sanitize_file_name|].
  apply keeps_bind.
  { intros w. now apply R_read. }
  intros isdir. destruct isdir; [|apply keeps_ret].
  apply keeps_bind; [|intros _; apply keeps_sanitize_file_name].
  destruct recursive; [|apply keeps_ret].
  apply keeps_bind.
  { intros w. now apply R_read. }
  intros children. apply keeps_for_each. intros child.
  apply keeps_sanitize_file_name.
Qed.

Lemma keeps_resolve_all (files : list path) : keeps R (resolve_all files).
Proof.
  induction files as [|f files IH]; [apply keeps_ret|].
  simpl. apply keeps_bind.
  { intros w. now apply R_read. }
  intros p. apply keeps_bind; [exact IH|]. intros ps. apply keeps_ret.
Qed.

Lemma keeps_check_exists (l : list path) (suppress_errors : bool) :
  keeps R (check_exists l suppress_errors).
Proof.
  unfold check_exists. apply keeps_for_each. intros p. apply keeps_bind.
  { intros w. now apply R_read. }
  intros found. destruct (negb found); [|apply keeps_ret].
  destruct (negb suppress_errors); [apply keeps_raise | apply keeps_exit].
Qed.

Lemma keeps_rename_file
  (char : str) (files : list path) (recursive suppress_errors : bool) :
  keeps R (rename_file char files recursive verbose suppress_errors).
Proof.
  unfold rename_file.
  destruct char as [|c [|c2 rest]];
    try (destruct (negb suppress_errors);
         [apply keeps_raise | apply keeps_exit]).
  destruct (is_excluded c).
  - destruct (negb suppress_errors); [apply keeps_raise | apply keeps_exit].
  - apply keeps_bind; [apply keeps_resolve_all|]. intros resolved.
    apply keeps_bind; [apply keeps_check_exists|]. intros _.
    apply keeps_for_each. intros p. apply keeps_rename_path.
Qed.

End Invariant.

(** ** Notices and renames *)

Lemma notices_match_refl (verbose : bool) (w : world) :
  notices_match verbose w w.
Proof.
  exists [], []. rewrite !app_nil_r. now destruct verbose.
Qed.

Lemma notices_match_trans (verbose : bool) (w1 w2 w3 : world) :
  notices_match verbose w1 w2 -> notices_match verbose w2 w3 ->
  notices_match verbose w1 w3.
Proof.
  intros (l1 & o1 & Hs1 & Hc1 & H1) (l2 & o2 & Hs2 & Hc2 & H2).
  exists (l1 ++ l2), (o1 ++ o2). rewrite Hs2, Hs1, Hc2, Hc1, !app_assoc.
  repeat split. destruct verbose.
  - now rewrite filter_app, map_app, H1, H2.
  - now subst.
Qed.

Lemma notices_match_read (verbose : bool) (w : world) (op : fs_op) :
  is_mutation op = false -> notices_match verbose w (record op w).
Proof.
  intros Hop. exists [], [op]. simpl. rewrite Hop, app_nil_r.
  now destruct verbose.
Qed.

Lemma notices_match_rename
  (verbose : bool) (file_path : path) (new_name : str) (w : world) :
  notices_match verbose w (renamed_world file_path new_name verbose w).
Proof.
  unfold renamed_world.
  eexists _, _. cbn [stdout calls]. repeat split.
  now destruct verbose.
Qed.

(** X7 (notices and renames): over a whole run of [rename_file],
    whatever its end, the lines printed are, when [verbose] is set, the
    renames performed, one line per call of [os.replace] and in the same
    order; when it is not set, nothing is printed. *)
Theorem notices_match_renames
  (char : str) (files : list path) (recursive verbose suppress_errors : bool)
  (w : world) :
  exists lines ops,
    stdout (snd (rename_file char files recursive verbose suppress_errors w))
    = stdout w ++ lines
    /\ calls (snd (rename_file char files recursive verbose suppress_errors w))
       = calls w ++ ops
    /\ if verbose then filter is_mutation ops = map replace_of lines
       else lines = [].
Proof.
  apply (@keeps_rename_file (notices_match verbose) verbose).
  - apply notices_match_refl.
  - apply notices_match_trans.
  - apply notices_match_read.
  - intros. apply notices_match_rename.
Qed.

(** ** The tree keeps its shape *)

Lemma size_Dir (es : entries) :
  size (Dir es) = list_sum (map (fun e => S (size (snd e))) es).
Proof.
  simpl. induction es as [|[k v] es IH]; [reflexivity|].
  simpl. now rewrite IH.
Qed.

Lemma distinct_rename (old_name new_name : str) (l : list str) :
  distinct l = true -> ~ In new_name l ->
  distinct (map (fun k => if str_eqb k old_name then new_name else k) l)
  = true.
Proof.
  intros Hd Hnew. apply distinct_NoDup. apply distinct_NoDup in Hd.
  induction Hd as [|x t Hx Ht IH]; [constructor|].
  simpl. constructor.
  - intros Hin. apply in_map_iff in Hin. destruct Hin as (y & E & Hy).
    destruct (str_eqb x old_name) eqn:Ex, (str_eqb y old_name) eqn:Ey.
    + apply str_eqb_eq in Ex, Ey. subst. contradiction.
    + subst y. apply Hnew. now right.
    + subst x. apply Hnew. now left.
    + subst y. contradiction.
  - apply IH. intros H. apply Hnew. now right.
Qed.

Lemma rename_entry_tree_kept (old_name new_name : str) (es : entries) :
  ~ In new_name (map fst es) -> new_name <> old_name ->
  well_formed (Dir es) = true ->
  well_formed (Dir (rename_entry old_name new_name es)) = true
  /\ size (Dir (rename_entry old_name new_name es)) = size (Dir es).
Proof.
  intros Hnew Hne Hwf.
  rewrite rename_entry_fresh by (assumption || congruence).
  rewrite well_formed_Dir in *. rewrite !size_Dir.
  apply andb_prop in Hwf. destruct Hwf as [Hd Hall].
  rewrite !map_map. split.
  - apply andb_true_intro. split.
    + rewrite <- (@distinct_rename old_name new_name (map fst es) Hd Hnew),
        map_map.
      f_equal. apply map_ext. intros [k v]. simpl.
      now destruct (str_eqb k old_name).
    + rewrite forallb_forall in *. intros e He.
      apply in_map_iff in He. destruct He as ([k v] & <- & He).
      specialize (Hall _ He). simpl in *.
      now destruct (str_eqb k old_name).
  - f_equal. apply map_ext. intros [k v]. simpl.
    now destruct (str_eqb k old_name).
Qed.

Lemma modify_tree_kept (f : entries -> entries) (d : path) :
  forall n : node,
    well_formed n = true ->
    (forall es, lookup d n = Some (Dir es) ->
                well_formed (Dir es) = true ->
                well_formed (Dir (f es)) = true
                /\ size (Dir (f es)) = size (Dir es)) ->
    well_formed (modify d f n) = true /\ size (modify d f n) = size n.
Proof.
  induction d as [|k d IH]; intros n Hwf H.
  - destruct n as [| |es]; simpl modify; auto.
  - destruct n as [| |es0]; [auto | auto |].
    change (modify (k :: d) f (Dir es0))
      with (Dir (map (fun e => if str_eqb (fst e) k
                               then (fst e, modify d f (snd e)) else e) es0)).
    set (g := fun e : list ascii * node =>
                if str_eqb (fst e) k then (fst e, modify d f (snd e)) else e).
    assert (Hg : forall e, In e es0 ->
                   fst (g e) = fst e
                   /\ well_formed (snd (g e)) = true
                   /\ size (snd (g e)) = size (snd e)).
    { intros [k' v] He. unfold g. simpl.
      pose proof (@well_formed_entry es0 (k', v) Hwf He) as Hv.
      destruct (str_eqb k' k) eqn:E; [|auto]. simpl.
      apply str_eqb_eq in E. subst k'. split; [reflexivity|].
      apply IH; [exact Hv|]. intros es Hl. apply H. simpl.
      now rewrite (@assoc_distinct k v es0 (@well_formed_names es0 Hwf) He). }
    rewrite well_formed_Dir, !size_Dir, !map_map.
    split.
    + apply andb_true_intro. split.
      * rewrite (map_ext_in _ fst); [now apply well_formed_names|].
        intros e He. now apply Hg.
      * apply forallb_forall. intros e He. apply in_map_iff in He.
        destruct He as (e0 & <- & He0). now apply Hg.
    + f_equal. apply map_ext_in. intros e He. f_equal. now apply Hg.
Qed.

Lemma tree_kept_rename
  (verbose : bool) (file_path : path) (new_name : str) (w : world)
  (es : entries) :
  lookup (fst (os_path_split file_path)) (fs w) = Some (Dir es) ->
  In (snd (os_path_split file_path)) (map fst es) ->
  ~ In new_name (map fst es) ->
  new_name <> snd (os_path_split file_path) ->
  tree_kept w (renamed_world file_path new_name verbose w).
Proof.
  intros Hd Hold Hnew Hne Hwf. unfold renamed_world. cbn [fs].
  apply modify_tree_kept; [exact Hwf|].
  intros es' Hd' Hwf'. rewrite Hd in Hd'. injection Hd' as <-.
  now apply rename_entry_tree_kept.
Qed.

Lemma tree_kept_run
  (char : str) (files : list path) (recursive verbose suppress_errors : bool) :
  keeps tree_kept (rename_file char files recursive verbose suppress_errors).
Proof.
  apply keeps_rename_file.
  - intros w Hwf. auto.
  - intros w1 w2 w3 H12 H23 Hwf. destruct (H12 Hwf) as [Hwf2 Hs2].
    destruct (H23 Hwf2) as [Hwf3 Hs3]. split; [exact Hwf3 | congruence].
  - intros w op _ Hwf. auto.
  - intros. now apply tree_kept_rename with (es := es).
Qed.



(** X9 (no entry is lost): on a tree with pairwise distinct names in
    every directory, a run of [rename_file] leaves the number of
    entries of the tree unchanged: nothing is deleted, overwritten or
    created, whatever the arguments and however the run ends. *)
Theorem no_entry_lost
  (char : str) (files : list path) (recursive verbose suppress_errors : bool)
  (w : world) :
  well_formed (fs w) = true ->
  size (fs (snd (rename_file char files recursive verbose suppress_errors w)))
  = size (fs w).
Proof.
  intros Hwf. now apply (@tree_kept_run char files recursive verbose
                           suppress_errors w).
Qed.

Lemma no_entry_lost_witness :
  size (fs (snd (rename_file (s2l "_") [[s2l "d"]] true true true
                   sample_world)))
  = size (fs sample_world).
Proof.
  apply (@no_entry_lost (s2l "_") [[s2l "d"]] true true true sample_world).
  reflexivity.
Defined.

(** ** How a run ends *)

Section Ends.

(** [P] holds of a normal end and is passed on by sequencing. *)
Variable P : forall A : Type, outcome A -> Prop.
Hypothesis P_return : forall (A : Type) (a : A), P (Return a).
Hypothesis P_raise_any :
  forall (A B : Type) (e : exn), P (@Raise A e) -> P (@Raise B e).
Hypothesis P_exit_any :
  forall (A B : Type) (status : Z), P (@Exit A status) -> P (@Exit B status).

Lemma ends_bind (A B : Type) (m : M A) (k : A -> M B) :
  (forall w, P (fst (m w))) -> (forall a w, P (fst (k a w))) ->
  forall w, P (fst (bind m k w)).
Proof.
  intros Hm Hk w. unfold bind. specialize (Hm w).
  destruct (m w) as [[a| |] w']; simpl in *.
  - apply Hk.
  - now apply P_raise_any with (A := A).
  - now apply P_exit_any with (A := A).
Qed.

Lemma ends_for_each (A : Type) (l : list A) (body : A -> M unit) :
  (forall x w, P (fst (body x w))) ->
  forall w, P (fst (for_each l body w)).
Proof.
  intros Hbody. induction l as [|x l IH]; intros w; [apply P_return|].
  simpl. apply ends_bind; [apply Hbody | intros _; exact IH].
Qed.

Hypothesis P_unchecked :
  forall (A : Type) (e : exn), checked_error e = false -> P (@Raise A e).

Variable suppress_errors : bool.
Hypothesis P_collision :
  forall new_name,
    P (if suppress_errors then Return tt
       else Raise (FileRenameError new_name)).

Lemma ends_sanitize_file_name
  (file_path : path) (c : ascii) (verbose : bool) (w : world) :
  P (fst (sanitize_file_name file_path c verbose suppress_errors w)).
Proof.
  destruct (sanitize_file_name_cases file_path c verbose suppress_errors w)
    as [[_ H]|[(es & _ & _ & H)|[[_ H]|[(es & _ & _ & _ & _ & H)
       |(es & _ & _ & _ & _ & H)]]]];
    rewrite H; cbn [fst]; auto.
Qed.

Lemma ends_rename_path
  (c : ascii) (recursive verbose : bool) (p : path) (w : world) :
  P (fst (rename_path c recursive verbose suppress_errors p w)).
Proof.
  revert w. unfold rename_path. apply ends_bind.
  { intros w. apply P_return. }
  intros isfile. destruct isfile; [apply ends_sanitize_file_name|].
  apply ends_bind.
  { intros w. apply P_return. }
  intros isdir. destruct isdir; [|intros w; apply P_return].
  apply ends_bind; [|intros _; apply ends_sanitize_file_name].
  destruct recursive; [|intros w; apply P_return].
  apply ends_bind.
  { intros w. apply P_return. }
  intros children. apply ends_for_each. intros child.
  apply ends_sanitize_file_name.
Qed.

End Ends.

Lemma ends_as_rename_phase
  (c : ascii) (files : list path) (recursive verbose suppress_errors : bool)
  (w : world) :
  ends_as suppress_errors
    (fst (for_each files (rename_path c recursive verbose suppress_errors) w))
  /\ no_exit
       (fst (for_each files
               (rename_path c recursive verbose suppress_errors) w)).
Proof.
  split.
  - revert w. apply (@ends_for_each (ends_as suppress_errors)); try easy.
    intros p w.
    apply (@ends_rename_path (ends_as suppress_errors)); try easy.
    + intros A e He. simpl. congruence.
    + intros new_name. now destruct suppress_errors.
  - revert w. apply (@ends_for_each no_exit); try easy.
    intros p w. apply (@ends_rename_path no_exit); try easy.
    intros new_name. now destruct suppress_errors.
Qed.

Lemma check_exists_untouched (l : list path) (suppress_errors : bool) :
  keeps untouched (check_exists l suppress_errors).
Proof.
  apply keeps_check_exists.
  - now split.
  - intros w1 w2 w3 [H1 H2] [H3 H4]. split; congruence.
  - now split.
Qed.

Lemma check_exists_ends (l : list path) (suppress_errors : bool) (w : world) :
  ends_as suppress_errors (fst (check_exists l suppress_errors w)).
Proof.
  revert w. unfold check_exists.
  apply (@ends_for_each (ends_as suppress_errors)); try easy.
  intros p. apply (@ends_bind (ends_as suppress_errors)); try easy.
  intros found w. destruct found; simpl; [exact I|].
  now destruct suppress_errors.
Qed.

(** How a whole run ends, and in which world an exit leaves it. *)
Lemma rename_file_ends
  (char : str) (files : list path) (recursive verbose suppress_errors : bool)
  (w : world) :
  ends_as suppress_errors
    (fst (rename_file char files recursive verbose suppress_errors w))
  /\ (forall status,
         fst (rename_file char files recursive verbose suppress_errors w)
         = Exit status ->
         untouched w
           (snd (rename_file char files recursive verbose suppress_errors w))).
Proof.
  destruct (valid_char char) eqn:Hv.
  - destruct char as [|c [|c2 rest]]; try discriminate. simpl in Hv.
    rewrite rename_file_valid by exact Hv. unfold bind.
    set (w1 := World (fs w) (stdout w) (calls w ++ map OpRealpath files)).
    pose proof (check_exists_ends files suppress_errors w1) as He.
    pose proof (check_exists_untouched files suppress_errors w1) as Hu.
    destruct (check_exists files suppress_errors w1) as [[[]| |] w2];
      cbn [fst snd] in *.
    + destruct (ends_as_rename_phase c files recursive verbose
                  suppress_errors w2) as [H1 H2].
      split; [exact H1|]. intros status E. rewrite E in H2. contradiction.
    + split; [exact He | discriminate].
    + split; [exact He|]. intros _ _. exact Hu.
  - destruct (@rename_file_rejects char files recursive verbose
                suppress_errors w (or_introl Hv))
      as (e & w' & ops & Hrun & Hfs & Hout & _ & _ & Hbad & _).
    rewrite Hrun. cbn [fst snd]. split.
    + destruct suppress_errors; simpl; [auto | reflexivity].
    + intros _ _. now split.
Qed.

(** X10 (an exit means nothing was renamed): a run of [rename_file]
    ends by [sys.exit] only when [suppress_errors] is set, only with
    status 1, and then the tree and the output are what they were
    before the run. *)
Theorem exit_means_nothing_renamed
  (char : str) (files : list path) (recursive verbose suppress_errors : bool)
  (w : world) (status : Z) :
  fst (rename_file char files recursive verbose suppress_errors w)
  = Exit status ->
  suppress_errors = true /\ status = 1%Z
  /\ fs (snd (rename_file char files recursive verbose suppress_errors w))
     = fs w
  /\ stdout (snd (rename_file char files recursive verbose suppress_errors w))
     = stdout w.
Proof.
  intros E.
  destruct (rename_file_ends char files recursive verbose suppress_errors w)
    as [He Hu].
  rewrite E in He. destruct He as [-> ->].
  destruct (Hu _ E) as [Hfs Hout]. auto.
Qed.

Lemma exit_means_nothing_renamed_witness :
  fs (snd (rename_file (s2l "_") [[s2l "d"]; [s2l "zz"]] true true true
             sample_world))
  = fs sample_world.
Proof.
  apply (@exit_means_nothing_renamed (s2l "_") [[s2l "d"]; [s2l "zz"]]
           true true true sample_world 1%Z).
  reflexivity.
Defined.

(** X11 (what the flag suppresses): with [suppress_errors] set, a run
    of [rename_file] never raises one of the program's own errors, the
    two about the substitution character, the missing path and the
    collision; only an error of [os.listdir], [os.replace] or
    [list.remove] can still come out of it. *)
Theorem suppressed_run_raises_no_checked_error
  (char : str) (files : list path) (recursive verbose : bool) (w : world)
  (e : exn) :
  fst (rename_file char files recursive verbose true w) = Raise e ->
  checked_error e = false.
Proof.
  intros E.
  destruct (rename_file_ends char files recursive verbose true w) as [He _].
  rewrite E in He. simpl in He.
  destruct (checked_error e); [|reflexivity].
  now specialize (He eq_refl).
Qed.

Lemma suppressed_run_raises_no_checked_error_witness :
  checked_error (ValueError_remove []) = false.
Proof.
  apply (@suppressed_run_raises_no_checked_error (s2l "_") [[]] false true
           sample_world (ValueError_remove [])).
  reflexivity.
Defined.

(** X12 (the root directory): handed the root directory, whose basename
    [os.path.split] gives as the empty string, [sanitize_file_name]
    raises the ValueError of [list.remove], whatever [suppress_errors]
    says, after its two reads and without a rename. *)
Theorem root_directory_raises
  (c : ascii) (verbose suppress_errors : bool) (w : world) (es : entries) :
  fs w = Dir es -> ~ In [] (map fst es) ->
  sanitize_file_name [] c verbose suppress_errors w
  = (Raise (ValueError_remove []), after_reads [] w).
Proof.
  intros Hfs Hempty.
  destruct (sanitize_file_name_cases [] c verbose suppress_errors w)
    as [[H _]|[(es' & _ & _ & H)|[[H _]|[(es' & Hd & Hold & _)
       |(es' & Hd & Hold & _)]]]].
  - exfalso. apply (H es). simpl. now rewrite Hfs.
  - exact H.
  - exfalso. unfold collides, siblings_at in H. simpl in H.
    rewrite Hfs in H.
    destruct (list_remove [] (map fst es)) as [siblings|] eqn:Hrm;
      [|discriminate].
    apply Hempty. apply list_remove_some. congruence.
  - exfalso. simpl in Hd, Hold. rewrite Hfs in Hd. injection Hd as <-.
    contradiction.
  - exfalso. simpl in Hd, Hold. rewrite Hfs in Hd. injection Hd as <-.
    contradiction.
Qed.

Lemma root_directory_raises_witness :
  sanitize_file_name [] "_" true true sample_world
  = (Raise (ValueError_remove []), after_reads [] sample_world).
Proof.
  apply (@root_directory_raises "_" true true sample_world
           [(s2l "d",
             Dir [(s2l "a 1.txt", File); (s2l "a_1.txt", File);
                  (s2l "New Folder", Dir [(s2l "Child File.txt", File)])])]).
  - reflexivity.
  - intros [E|[]]. discriminate.
Defined.

(** ** Paths that stay valid during a run *)

Lemma strip_prefix_some (d : path) :
  forall y q : path, strip_prefix d y = Some q <-> y = d ++ q.
Proof.
  induction d as [|k d IH]; intros y q; simpl.
  - split; [now intros [= ->] | now intros ->].
  - destruct y as [|k' y]; [split; discriminate|].
    destruct (str_eqb k k') eqn:E.
    + apply str_eqb_eq in E. subst k'. rewrite IH.
      split; [now intros -> | now intros [= ->]].
    + apply str_eqb_neq in E. split; [discriminate|].
      intros [= -> _]. contradiction.
Qed.

Lemma lookup_app_inv (d q : path) :
  forall n : node,
    lookup (d ++ q) n
    = match lookup d n with
      | Some m => lookup q m
      | None => None
      end.
Proof.
  induction d as [|k d IH]; intros n; [reflexivity|].
  simpl. destruct n as [| |es]; try reflexivity.
  destruct (assoc k es); [apply IH | reflexivity].
Qed.

Lemma lookup_parent (x : path) (n : node) :
  x <> [] -> lookup x n <> None ->
  exists es, lookup (removelast x) n = Some (Dir es)
             /\ In (last x []) (map fst es).
Proof.
  intros Hx Hl. rewrite (app_removelast_last [] Hx), lookup_app_inv in Hl.
  destruct (lookup (removelast x) n) as [[| |es]|]; try (simpl in Hl; congruence).
  exists es. split; [reflexivity|]. apply assoc_names.
  simpl in Hl. now destruct (assoc (last x []) es).
Qed.

Lemma lookup_well_formed (p : path) :
  forall n m : node,
    lookup p n = Some m -> well_formed n = true -> well_formed m = true.
Proof.
  induction p as [|k p IH]; intros n m Hl Hwf; simpl in Hl.
  - now injection Hl as <-.
  - destruct n as [| |es]; try discriminate.
    destruct (assoc k es) as [v|] eqn:Hk; [|discriminate].
    apply (IH v m Hl). apply assoc_In in Hk.
    now apply (@well_formed_entry es (k, v) Hwf Hk).
Qed.

Lemma assoc_map_other (k k' : str) (g : node -> node) (es : entries) :
  k' <> k ->
  assoc k' (map (fun e => if str_eqb (fst e) k then (fst e, g (snd e)) else e)
              es)
  = assoc k' es.
Proof.
  intros Hne. induction es as [|[k0 v] es IH]; [reflexivity|].
  simpl. destruct (str_eqb k0 k) eqn:E; simpl.
  - apply str_eqb_eq in E. subst k0.
    replace (str_eqb k k') with false
      by (symmetry; apply str_eqb_neq; congruence).
    exact IH.
  - destruct (str_eqb k0 k'); [reflexivity | exact IH].
Qed.

(** A path that does not go through the modified directory resolves
    after the modification if it did before. *)
Lemma lookup_modify_other (f : entries -> entries) (d : path) :
  forall (y : path) (n : node),
    strip_prefix d y = None ->
    lookup y n <> None -> lookup y (modify d f n) <> None.
Proof.
  induction d as [|k d IH]; intros y n Hs Hl; [discriminate|].
  destruct n as [| |es0]; try exact Hl.
  change (modify (k :: d) f (Dir es0))
    with (Dir (map (fun e => if str_eqb (fst e) k
                             then (fst e, modify d f (snd e)) else e) es0)).
  destruct y as [|k' y]; [discriminate|].
  simpl in Hs. simpl lookup in *.
  destruct (str_eqb k k') eqn:E.
  - apply str_eqb_eq in E. subst k'.
    rewrite assoc_map_modify. destruct (assoc k es0) as [v|]; [|exact Hl].
    simpl. now apply IH.
  - apply str_eqb_neq in E.
    rewrite assoc_map_other by congruence. exact Hl.
Qed.

(** After a rename, every path that existed and does not go through
    the renamed entry still exists. *)
Lemma lookup_survives_rename
  (d : path) (old_name new_name : str) (es : entries) (n : node) (y : path) :
  lookup d n = Some (Dir es) ->
  ~ In new_name (map fst es) ->
  lookup y n <> None ->
  (forall q, y <> d ++ old_name :: q) ->
  lookup y (modify d (rename_entry old_name new_name) n) <> None.
Proof.
  intros Hd Hnew Hl Hy.
  destruct (strip_prefix d y) as [q|] eqn:Hs;
    [|now apply lookup_modify_other].
  apply strip_prefix_some in Hs. subst y.
  rewrite (lookup_modify _ _ q _ Hd). rewrite (lookup_app _ q _ Hd) in Hl.
  destruct q as [|k q]; [discriminate|].
  simpl in *. rewrite assoc_rename_entry; [exact Hl | |].
  - intros ->. now apply (Hy q).
  - intros ->. apply Hnew. apply assoc_names.
    now destruct (assoc new_name es).
Qed.

Lemma for_each_cons (A : Type) (x : A) (l : list A) (body : A -> M unit)
  (w : world) :
  for_each (x :: l) body w
  = match body x w with
    | (Return _, w') => for_each l body w'
    | (Raise e, w') => (Raise e, w')
    | (Exit status, w') => (Exit status, w')
    end.
Proof. reflexivity. Qed.

(** Handed, deepest first, paths that exist, [sanitize_file_name] finds
    each of them where the list says it is. *)
Lemma for_each_sanitize_valid (c : ascii) (verbose suppress_errors : bool) :
  forall (l : list path) (w : world),
    deepest_first l -> NoDup l ->
    (forall x, In x l -> x <> [] /\ lookup x (fs w) <> None) ->
    collision_or_return suppress_errors
      (fst (for_each l
              (fun p => sanitize_file_name p c verbose suppress_errors) w)).
Proof.
  induction l as [|x l IH]; intros w Hdf Hnd Hex; [exact I|].
  destruct Hdf as [Hx Hdf]. apply NoDup_cons_iff in Hnd.
  destruct Hnd as [Hnotin Hnd].
  destruct (Hex x (or_introl eq_refl)) as [Hne Hl].
  destruct (@lookup_parent x (fs w) Hne Hl) as (es & Hd & Hold).
  assert (Hrest : forall w', fs w' = fs w ->
            collision_or_return suppress_errors
              (fst (for_each l
                      (fun p => sanitize_file_name p c verbose
                                  suppress_errors) w'))).
  { intros w' Hfs. apply IH; try assumption.
    intros y Hy. rewrite Hfs. apply Hex. now right. }
  rewrite for_each_cons.
  destruct (sanitize_file_name_cases x c verbose suppress_errors w)
    as [[H _]|[(es' & Hd' & Hn & _)|[[_ H]|[(es' & _ & _ & _ & _ & H)
       |(es' & Hd' & _ & Hnew & _ & H)]]]].
  - exfalso. now apply (H es).
  - exfalso. cbn [os_path_split fst snd] in Hd', Hn.
    rewrite Hd in Hd'. injection Hd' as <-. contradiction.
  - rewrite H. destruct suppress_errors.
    + now apply Hrest.
    + simpl. split; [reflexivity|]. now eexists.
  - rewrite H. now apply Hrest.
  - rewrite H. cbn [os_path_split fst snd] in Hd', Hnew.
    rewrite Hd in Hd'. injection Hd' as <-.
    apply IH; try assumption.
    intros y Hy. destruct (Hex y (or_intror Hy)) as [Hyne Hyl].
    split; [exact Hyne|]. unfold renamed_world. cbn [fs os_path_split fst snd].
    apply lookup_survives_rename with (es := es); try assumption.
    intros q E.
    assert (Ex : x = removelast x ++ [last x []])
      by now apply app_removelast_last.
    destruct q as [|k q].
    + apply Hnotin. now rewrite Ex, <- E.
    + apply (Hx y Hy). exists (k :: q). split; [discriminate|].
      rewrite Ex at 1. rewrite <- app_assoc. exact E.
Qed.

Lemma rename_order_valid (top : path) (n : node) (r : node) :
  top <> [] -> lookup top r = Some n -> well_formed n = true ->
  deepest_first (rename_order true top n)
  /\ NoDup (rename_order true top n)
  /\ (forall x, In x (rename_order true top n) ->
                x <> [] /\ lookup x r <> None).
Proof.
  intros Htop Hl Hwf. unfold rename_order.
  assert (Hbelow : forall x, In x (get_children top n) -> is_ancestor top x).
  { intros x Hx. apply get_children_below in Hx.
    destruct Hx as (k & rest & ->). now exists (k :: rest). }
  split; [|split].
  - apply deepest_first_app.
    + now apply get_children_deepest_first.
    + simpl. tauto.
    + intros b y Hb [<-|[]] Hy. apply Hbelow in Hb.
      apply is_ancestor_length in Hb, Hy. lia.
  - apply NoDup_app.
    + now apply get_children_NoDup.
    + constructor; [tauto | constructor].
    + intros x Hx [<-|[]]. apply Hbelow, is_ancestor_length in Hx. lia.
  - intros x Hx. apply in_app_or in Hx.
    destruct Hx as [Hx|[<-|[]]];
      [|split; [exact Htop | congruence]].
    split.
    + apply Hbelow in Hx. destruct Hx as (rest & Hr & ->).
      destruct top; [congruence | discriminate].
    + apply get_children_sound in Hx; [|exact Hwf].
      destruct Hx as (p & _ & -> & Hp). now rewrite (lookup_app _ p _ Hl).
Qed.

(** An existing path other than the root, with distinct names below it,
    is processed without an error of the operating system. *)
Lemma rename_path_valid
  (c : ascii) (recursive verbose suppress_errors : bool) (top : path)
  (n : node) (w : world) :
  top <> [] -> lookup top (fs w) = Some n -> well_formed n = true ->
  collision_or_return suppress_errors
    (fst (rename_path c recursive verbose suppress_errors top w)).
Proof.
  intros Htop Hl Hwf.
  assert (Hone : forall w', fs w' = fs w ->
            collision_or_return suppress_errors
              (fst (sanitize_file_name top c verbose suppress_errors w'))).
  { intros w' Hfs.
    rewrite <- (for_each_one top
                  (fun p => sanitize_file_name p c verbose suppress_errors)
                  w').
    apply for_each_sanitize_valid.
    - simpl. tauto.
    - constructor; [tauto | constructor].
    - intros x [<-|[]]. rewrite Hfs, Hl. split; [exact Htop | discriminate]. }
  destruct n as [| |es].
  - unfold rename_path, bind, os_path_isfile. rewrite Hl. simpl is_file.
    cbv iota. now apply Hone.
  - unfold rename_path, bind, os_path_isfile, os_path_isdir. rewrite Hl.
    cbn [is_file]. cbv beta. cbn [record fs]. rewrite Hl. exact I.
  - destruct recursive.
    + rewrite (@rename_path_directory c verbose suppress_errors top es w Hl).
      destruct (@rename_order_valid top (Dir es) (fs w) Htop Hl Hwf)
        as (Hdf & Hnd & Hex).
      now apply for_each_sanitize_valid.
    + unfold rename_path, bind, os_path_isfile, os_path_isdir. rewrite Hl.
      cbn [is_file]. cbv beta. cbn [record fs]. rewrite Hl.
      cbn [is_dir]. unfold ret. now apply Hone.
Qed.

Lemma rename_path_missing
  (c : ascii) (recursive verbose suppress_errors : bool) (p : path) (w : world) :
  lookup p (fs w) = None ->
  rename_path c recursive verbose suppress_errors p w
  = (Return tt, record (OpIsdir p) (record (OpIsfile p) w)).
Proof.
  intros Hl. unfold rename_path, bind, os_path_isfile, os_path_isdir.
  rewrite Hl. cbv beta. cbn [record fs]. now rewrite Hl.
Qed.

Lemma tree_kept_rename_path
  (c : ascii) (recursive verbose suppress_errors : bool) (p : path) :
  keeps tree_kept (rename_path c recursive verbose suppress_errors p).
Proof.
  apply keeps_rename_path.
  - intros w Hwf. auto.
  - intros w1 w2 w3 H12 H23 Hwf. destruct (H12 Hwf) as [Hwf2 Hs2].
    destruct (H23 Hwf2) as [Hwf3 Hs3]. split; [exact Hwf3 | congruence].
  - intros w op _ Hwf. auto.
  - intros. now apply tree_kept_rename with (es := es).
Qed.

Lemma rename_phase_valid
  (c : ascii) (recursive verbose suppress_errors : bool) :
  forall (files : list path) (w : world),
    well_formed (fs w) = true -> ~ In [] files ->
    collision_or_return suppress_errors
      (fst (for_each files
              (rename_path c recursive verbose suppress_errors) w)).
Proof.
  induction files as [|p files IH]; intros w Hwf Hroot; [exact I|].
  rewrite for_each_cons.
  assert (Hp : p <> []) by (intros ->; apply Hroot; now left).
  assert (Hfiles : ~ In [] files) by (intros H; apply Hroot; now right).
  pose proof (@tree_kept_rename_path c recursive verbose suppress_errors p w
                Hwf) as [Hwf' _].
  destruct (lookup p (fs w)) as [n|] eqn:Hl.
  - pose proof (@rename_path_valid c recursive verbose suppress_errors p n w
                  Hp Hl (lookup_well_formed _ _ Hl Hwf)) as Hv.
    destruct (rename_path c recursive verbose suppress_errors p w)
      as [[[]| |] w']; cbn [fst snd] in *.
    + now apply IH.
    + exact Hv.
    + exact Hv.
  - rewrite rename_path_missing in * by exact Hl. cbn [snd] in Hwf'.
    now apply IH.
Qed.

Lemma check_exists_ok (suppress_errors : bool) (l : list path) :
  forall w : world,
    first_missing (fs w) l = None ->
    exists ops,
      check_exists l suppress_errors w
      = (Return tt, World (fs w) (stdout w) (calls w ++ ops)).
Proof.
  induction l as [|q l IH]; intros w H.
  - exists []. unfold check_exists. simpl. unfold ret.
    rewrite app_nil_r. now destruct w.
  - simpl in H. rewrite check_exists_cons.
    destruct (lookup q (fs w)); [|discriminate].
    destruct (IH (record (OpExists q) w) H) as (ops & ->).
    exists (OpExists q :: ops). simpl. now rewrite <- app_assoc.
Qed.

(** X13 (paths stay valid): on a tree whose directories have pairwise
    distinct names, and with no root directory among the inputs, a run
    of [rename_file] raises, if anything, one of the program's own
    errors, and only when [suppress_errors] is not set: every path
    handed to [sanitize_file_name], the descendants collected before
    the renames included, still names an entry of its parent when its
    turn comes.  With [suppress_errors] set the run returns normally or
    exits with status 1. *)
Theorem paths_stay_valid
  (char : str) (files : list path) (recursive verbose suppress_errors : bool)
  (w : world) :
  well_formed (fs w) = true -> ~ In [] files ->
  (forall e,
      fst (rename_file char files recursive verbose suppress_errors w)
      = Raise e ->
      checked_error e = true /\ suppress_errors = false)
  /\ (suppress_errors = true ->
      fst (rename_file char files recursive verbose suppress_errors w)
      = Return tt
      \/ fst (rename_file char files recursive verbose suppress_errors w)
         = Exit 1%Z).
Proof.
  intros Hwf Hroot.
  assert (H : match fst (rename_file char files recursive verbose
                           suppress_errors w) with
              | Return _ => True
              | Raise e => checked_error e = true /\ suppress_errors = false
              | Exit status => suppress_errors = true /\ status = 1%Z
              end).
  { destruct (valid_char char) eqn:Hv.
    - destruct char as [|c [|c2 rest]]; try discriminate. simpl in Hv.
      destruct (first_missing (fs w) files) as [p|] eqn:Hm.
      + assert (Hm' : first_missing (fs w) files <> None) by congruence.
        destruct (@rename_file_rejects [c] files recursive verbose
                    suppress_errors w (or_intror Hm'))
          as (e & w' & ops & Hrun & _ & _ & _ & _ & _ & Hmiss).
        rewrite Hrun. cbn [fst]. destruct suppress_errors; [auto|].
        destruct (Hmiss Hv) as (p' & _ & ->). auto.
      + rewrite rename_file_valid by exact Hv. unfold bind.
        destruct (@check_exists_ok suppress_errors files
                    (World (fs w) (stdout w)
                       (calls w ++ map OpRealpath files)) Hm)
          as (ops & ->).
        pose proof (@rename_phase_valid c recursive verbose suppress_errors
                      files
                      (World (fs w) (stdout w)
                         ((calls w ++ map OpRealpath files) ++ ops))
                      Hwf Hroot) as Hp.
        cbn [fs stdout calls] in *.
        destruct (fst (for_each files _ _)) as [[]|e|status];
          [exact I | | contradiction].
        destruct Hp as [-> [name ->]]. auto.
    - destruct (@rename_file_rejects char files recursive verbose
                  suppress_errors w (or_introl Hv))
        as (e & w' & ops & Hrun & _ & _ & _ & _ & Hbad & _).
      rewrite Hrun. cbn [fst]. destruct suppress_errors; [auto|].
      destruct (Hbad Hv) as [_ ->].
      destruct char as [|c [|c2 rest]]; auto. }
  split.
  - intros e E. now rewrite E in H.
  - intros ->.
    destruct (fst (rename_file char files recursive verbose true w))
      as [[]|e|status]; [now left | | right].
    + destruct H as [_ H]. discriminate.
    + destruct H as [_ ->]. reflexivity.
Qed.

Lemma paths_stay_valid_witness :
  fst (rename_file (s2l "_") [[s2l "d"]] true true true sample_world)
  = Return tt
  \/ fst (rename_file (s2l "_") [[s2l "d"]] true true true sample_world)
     = Exit 1%Z.
Proof.
  apply (@paths_stay_valid (s2l "_") [[s2l "d"]] true true true sample_world);
    try reflexivity.
  intros [E|[]]. discriminate.
Defined.

(** ** After a rename *)

Lemma sanitize_file_name_renames
  (file_path : path) (c : ascii) (verbose suppress_errors : bool) (w : world)
  (es : entries) :
  lookup (fst (os_path_split file_path)) (fs w) = Some (Dir es) ->
  In (snd (os_path_split file_path)) (map fst es) ->
  collides file_path c w = false ->
  candidate_at file_path c w <> snd (os_path_split file_path) ->
  sanitize_file_name file_path c verbose suppress_errors w
  = (Return tt, renamed_world file_path (candidate_at file_path c w) verbose w)
  /\ ~ In (candidate_at file_path c w) (map fst es).
Proof.
  intros Hd Hold Hcol Hne.
  destruct (sanitize_file_name_cases file_path c verbose suppress_errors w)
    as [[H _]|[(es' & Hd' & Hn & _)|[[H _]|[(es' & _ & _ & _ & H & _)
       |(es' & Hd' & _ & Hnew & _ & Hrun)]]]].
  - exfalso. now apply (H es).
  - exfalso. rewrite Hd in Hd'. injection Hd' as <-. contradiction.
  - congruence.
  - contradiction.
  - rewrite Hd in Hd'. injection Hd' as <-. auto.
Qed.

Lemma os_path_split_join (d : path) (k : str) :
  os_path_split (path_join d k) = (d, k).
Proof.
  unfold os_path_split, path_join. now rewrite removelast_last, last_last.
Qed.




Lemma names_renamed (old_name new_name : str) (es : entries) :
  ~ In new_name (map fst es) -> old_name <> new_name ->
  map fst (rename_entry old_name new_name es)
  = map (fun k => if str_eqb k old_name then new_name else k) (map fst es).
Proof.
  intros Hnew Hne. rewrite rename_entry_fresh by assumption.
  rewrite !map_map. apply map_ext. intros [k v]. simpl.
  now destruct (str_eqb k old_name).
Qed.

(** X15 (the second of two equal candidates collides): when two entries
    of one directory have the same candidate and the first is renamed
    to it, the call for the second finds the collision in the listing
    it reads anew: it raises the rename-collision error, or skips the
    entry when [suppress_errors] is set, and renames nothing. *)
Theorem second_candidate_collides
  (d : path) (old1 old2 : str) (c : ascii) (verbose suppress_errors : bool)
  (w : world) (es : entries) :
  lookup d (fs w) = Some (Dir es) ->
  In old1 (map fst es) -> In old2 (map fst es) -> old1 <> old2 ->
  collides (path_join d old1) c w = false ->
  candidate_at (path_join d old1) c w <> old1 ->
  candidate_at (path_join d old2) c w = candidate_at (path_join d old1) c w ->
  let w' := snd (sanitize_file_name (path_join d old1) c verbose
                   suppress_errors w) in
  sanitize_file_name (path_join d old2) c verbose suppress_errors w'
  = (if suppress_errors then Return tt
     else Raise (FileRenameError (candidate_at (path_join d old1) c w)),
     after_reads (path_join d old2) w').
Proof.
  intros Hd H1 H2 Hne Hcol Hcand Hsame w'.
  set (new_name := candidate_at (path_join d old1) c w) in *.
  assert (Hsplit1 := os_path_split_join d old1).
  assert (Hsplit2 := os_path_split_join d old2).
  assert (Hd1 : lookup (fst (os_path_split (path_join d old1))) (fs w)
                = Some (Dir es)) by now rewrite Hsplit1.
  assert (Hold1 : In (snd (os_path_split (path_join d old1))) (map fst es))
    by now rewrite Hsplit1.
  assert (Hcand1 : new_name <> snd (os_path_split (path_join d old1)))
    by now rewrite Hsplit1.
  destruct (@sanitize_file_name_renames (path_join d old1) c verbose
              suppress_errors w es Hd1 Hold1 Hcol Hcand1) as [Hrun Hnew].
  fold new_name in Hrun, Hnew.
  assert (Hfs : fs w' = modify d (rename_entry old1 new_name) (fs w)).
  { subst w'. rewrite Hrun. unfold renamed_world. now rewrite Hsplit1. }
  assert (Hne2 : new_name <> old2) by (intros E; apply Hnew; now rewrite E).
  assert (Hne1 : old1 <> new_name) by (intros E; apply Hcand; now rewrite E).
  assert (Hd' : lookup d (fs w')
                = Some (Dir (rename_entry old1 new_name es))).
  { rewrite Hfs. rewrite <- (app_nil_r d) at 1.
    now rewrite (lookup_modify _ _ [] _ Hd). }
  assert (Hkind : lookup (path_join d old2) (fs w')
                  = lookup (path_join d old2) (fs w)).
  { rewrite (@lookup_child d old2 _ (fs w') Hd'),
      (@lookup_child d old2 es (fs w) Hd).
    apply assoc_rename_entry; congruence. }
  assert (Hc2 : candidate_at (path_join d old2) c w' = new_name).
  { rewrite <- Hsame. unfold candidate_at. now rewrite Hkind. }
  assert (Hcol2 : collides (path_join d old2) c w' = true).
  { unfold collides, siblings_at. rewrite Hsplit2. cbn [fst snd].
    rewrite Hd', Hc2, names_renamed by assumption.
    set (names' := map (fun k => if str_eqb k old1 then new_name else k)
                     (map fst es)).
    assert (Hin_new : In new_name names').
    { apply in_map_iff. exists old1. now rewrite str_eqb_refl. }
    assert (Hin_old2 : In old2 names').
    { apply in_map_iff. exists old2.
      replace (str_eqb old2 old1) with false
        by (symmetry; apply str_eqb_neq; congruence).
      auto. }
    apply list_remove_some in Hin_old2.
    destruct (list_remove old2 names') as [siblings|] eqn:Hrm;
      [|congruence].
    apply existsb_str_eqb.
    now apply (@list_remove_keeps old2 new_name names' siblings Hrm). }
  rewrite sanitize_file_name_collision by exact Hcol2.
  now rewrite Hc2.
Qed.

Lemma second_candidate_collides_witness :
  let fs0 := Dir [(s2l "d", Dir [(s2l "a b", File); (s2l "a*b", File)])] in
  let w := World fs0 [] [] in
  sanitize_file_name (path_join [s2l "d"] (s2l "a*b")) "_" true false
    (snd (sanitize_file_name (path_join [s2l "d"] (s2l "a b")) "_" true false
            w))
  = (Raise (FileRenameError
              (candidate_at (path_join [s2l "d"] (s2l "a b")) "_" w)),
     after_reads (path_join [s2l "d"] (s2l "a*b"))
       (snd (sanitize_file_name (path_join [s2l "d"] (s2l "a b")) "_" true
               false w))).
Proof.
  intros fs0 w.
  apply (@second_candidate_collides [s2l "d"] (s2l "a b") (s2l "a*b") "_"
           true false w [(s2l "a b", File); (s2l "a*b", File)]);
    try reflexivity; try (vm_compute; discriminate).
  - simpl. auto.
  - simpl. auto.
Defined.

(** ** Verbosity *)

Lemma alike_ret (A : Type) (a : A) : alike (ret a) (ret a).
Proof. intros w1 w2 H. now split. Qed.

Lemma alike_raise (A : Type) (e : exn) : alike (@raise A e) (raise e).
Proof. intros w1 w2 H. now split. Qed.

Lemma alike_exit (A : Type) (status : Z) :
  alike (@sys_exit A status) (sys_exit status).
Proof. intros w1 w2 H. now split. Qed.

Lemma alike_bind (A B : Type) (m1 m2 : M A) (k1 k2 : A -> M B) :
  alike m1 m2 -> (forall a, alike (k1 a) (k2 a)) ->
  alike (bind m1 k1) (bind m2 k2).
Proof.
  intros Hm Hk w1 w2 H. unfold bind. destruct (Hm w1 w2 H) as [Hf Hs].
  destruct (m1 w1) as [o1 w1'], (m2 w2) as [o2 w2']. simpl in Hf, Hs.
  subst o2. destruct o1 as [a| |]; [now apply Hk | now split | now split].
Qed.

Lemma alike_for_each (A : Type) (l : list A) (body1 body2 : A -> M unit) :
  (forall x, alike (body1 x) (body2 x)) ->
  alike (for_each l body1) (for_each l body2).
Proof.
  intros Hbody. induction l as [|x l IH]; [apply alike_ret|].
  simpl. apply alike_bind; [apply Hbody | intros _; exact IH].
Qed.

Lemma alike_print (src1 dest1 : path) :
  alike (print src1 dest1) (ret tt).
Proof. intros w1 w2 H. now split. Qed.

Lemma alike_os_replace (d : path) (old_name new_name : str) :
  alike (os_replace d old_name new_name) (os_replace d old_name new_name).
Proof.
  intros w1 w2 [Hfs Hcalls]. unfold os_replace. rewrite Hfs.
  destruct (lookup (path_join d old_name) (fs w2)); simpl;
    (split; [reflexivity | split; simpl; congruence]).
Qed.

Lemma alike_sanitize_file_name
  (file_path : path) (c : ascii) (suppress_errors : bool) :
  alike (sanitize_file_name file_path c true suppress_errors)
    (sanitize_file_name file_path c false suppress_errors).
Proof.
  unfold sanitize_file_name, generate_new_pathname_at.
  destruct (os_path_split file_path) as [dirname old_name].
  apply alike_bind.
  { apply alike_bind; [|intros isfile; apply alike_ret].
    intros w1 w2 [Hfs Hcalls]. unfold os_path_isfile. rewrite Hfs.
    split; [reflexivity | split; simpl; congruence]. }
  intros new_name. apply alike_bind.
  { intros w1 w2 [Hfs Hcalls]. unfold os_listdir. rewrite Hfs.
    destruct (lookup dirname (fs w2)) as [[| |es]|]; simpl;
      (split; [reflexivity | split; simpl; congruence]). }
  intros listing. destruct (list_remove old_name listing) as [siblings|];
    [|apply alike_raise].
  destruct (mem new_name siblings).
  - destruct (negb suppress_errors); [apply alike_raise | apply alike_ret].
  - destruct (negb (str_eqb new_name old_name)); [|apply alike_ret].
    apply alike_bind; [apply alike_os_replace|]. intros _.
    apply alike_print.
Qed.

Lemma alike_read (A : Type) (f : node -> A) (op : fs_op) :
  alike (fun w => (Return (f (fs w)), record op w))
    (fun w => (Return (f (fs w)), record op w)).
Proof.
  intros w1 w2 [Hfs Hcalls]. simpl. rewrite Hfs.
  split; [reflexivity | split; simpl; congruence].
Qed.

Lemma alike_rename_path
  (c : ascii) (recursive suppress_errors : bool) (p : path) :
  alike (rename_path c recursive true suppress_errors p)
    (rename_path c recursive false suppress_errors p).
Proof.
  unfold rename_path. apply alike_bind.
  { apply (alike_read
             (fun n => match lookup p n with
                       | Some m => is_file m | None => false end)). }
  intros isfile. destruct isfile; [apply alike_sanitize_file_name|].
  apply alike_bind.
  { apply (alike_read
             (fun n => match lookup p n with
                       | Some m => is_dir m | None => false end)). }
  intros isdir. destruct isdir; [|apply alike_ret].
  apply alike_bind; [|intros _; apply alike_sanitize_file_name].
  destruct recursive; [|apply alike_ret].
  apply alike_bind.
  { apply (alike_read
             (fun n => match lookup p n with
                       | Some m => get_children p m | None => [] end)). }
  intros children. apply alike_for_each. intros child.
  apply alike_sanitize_file_name.
Qed.

Lemma alike_resolve_all (files : list path) :
  alike (resolve_all files) (resolve_all files).
Proof.
  induction files as [|f files IH]; [apply alike_ret|].
  simpl. apply alike_bind.
  { apply (alike_read (fun _ => f)). }
  intros p. apply alike_bind; [exact IH|]. intros ps. apply alike_ret.
Qed.

Lemma alike_check_exists (l : list path) (suppress_errors : bool) :
  alike (check_exists l suppress_errors) (check_exists l suppress_errors).
Proof.
  unfold check_exists. apply alike_for_each. intros p. apply alike_bind.
  { apply (alike_read
             (fun n => match lookup p n with
                       | Some _ => true | None => false end)). }
  intros found. destruct (negb found); [|apply alike_ret].
  destruct (negb suppress_errors); [apply alike_raise | apply alike_exit].
Qed.

Lemma alike_rename_file
  (char : str) (files : list path) (recursive suppress_errors : bool) :
  alike (rename_file char files recursive true suppress_errors)
    (rename_file char files recursive false suppress_errors).
Proof.
  unfold rename_file.
  destruct char as [|c [|c2 rest]];
    try (destruct (negb suppress_errors);
         [apply alike_raise | apply alike_exit]).
  destruct (is_excluded c).
  - destruct (negb suppress_errors); [apply alike_raise | apply alike_exit].
  - apply alike_bind; [apply alike_resolve_all|]. intros resolved.
    apply alike_bind; [apply alike_check_exists|]. intros _.
    apply alike_for_each. intros p. apply alike_rename_path.
Qed.

(** X16 (the quiet flag changes the output only): two runs of the
    script on the same tree whose arguments differ in [--quiet] alone
    end in the same way, make the same calls into the file system and
    leave the same tree; they differ in the lines printed. *)
Theorem quiet_changes_output_only
  (suppress_errors recursive : bool) (char : str) (files : list path)
  (w : world) :
  let loud := main (Namespace suppress_errors false recursive char files) w in
  let quiet := main (Namespace suppress_errors true recursive char files) w in
  fst loud = fst quiet
  /\ fs (snd loud) = fs (snd quiet)
  /\ calls (snd loud) = calls (snd quiet)
  /\ stdout (snd quiet) = stdout w.
Proof.
  intros loud quiet. subst loud quiet. unfold main. simpl.
  destruct (@alike_rename_file char files recursive suppress_errors w w)
    as [Hf [Hfs Hcalls]]; [now split|].
  repeat split; try assumption.
  pose proof (@keeps_rename_file (notices_match false) false
                (notices_match_refl false) (@notices_match_trans false)
                (@notices_match_read false)
                (fun file_path new_name w0 es _ _ _ _ =>
                   @notices_match_rename false file_path new_name w0)
                char files recursive suppress_errors w)
    as (lines & ops & Hout & _ & ->).
  now rewrite app_nil_r in Hout.
Qed.
